(** * peaks.js: segment layer synchronisation and mouse-drag gestures

    A shallow embedding of [segments-layer.js] (the [SegmentsLayer] class)
    and of the mouse-drag-handler module (the [MouseDragHandler] class),
    with the properties of the specification stated over it.

    Conventions.
    - JavaScript numbers are exact rationals plus [NaN]; [undefined] and
      [null] are kept as values because the code subtracts them.  The
      code computes in binary64: what depends on the outcome of a
      comparison is stated for whole coordinates ([Js.whole]), on which
      binary64 is exact.
    - A property read [object[id]] on a plain object is a lookup among the
      object's own properties: what reads an id that may hold no own
      property is stated for ids that are not names of [Object.prototype]
      ([Segments.Plain]), for which the read yields [undefined].
    - Opaque collaborators (host handlers, Konva shapes, the Konva layer)
      are not executed: every call made on them is appended to a trace.
    - A method that can raise returns an [outcome]. *)

From Stdlib Require Import List String Bool QArith Qround ZArith Lia.
Import ListNotations.
Open Scope string_scope.
Open Scope list_scope.

(** ** JavaScript values used by the two classes *)

Module Js.

Inductive number := Fin (q : Q) | NaN.

Inductive value := Null | Undefined | Num (n : number).

Definition ToNumber (v : value) : number :=
  match v with
  | Null => Fin 0
  | Undefined => NaN
  | Num n => n
  end.

Definition truthy (v : value) : bool :=
  match v with
  | Num (Fin q) => negb (Qeq_bool q 0)
  | _ => false
  end.

(** [a - b] *)
Definition sub (a b : value) : number :=
  match ToNumber a, ToNumber b with
  | Fin x, Fin y => Fin (x - y)
  | _, _ => NaN
  end.

(** [a + b] on numbers *)
Definition add (a b : number) : number :=
  match a, b with
  | Fin x, Fin y => Fin (x + y)
  | _, _ => NaN
  end.

(** [Math.pow(a, 2)] *)
Definition pow2 (a : number) : number :=
  match a with
  | Fin x => Fin (x ^ 2)
  | NaN => NaN
  end.

(** [Math.floor(q)] *)
Definition floor (q : Q) : value := Num (Fin (inject_Z (Qfloor q))).

Definition Qlt_bool (a b : Q) : bool := negb (Qle_bool b a).

(** [Math.sqrt(a) > k] for a threshold [0 <= k]: the square root is not
    rational, so the comparison is made on the squares; a comparison with
    [NaN] is false. *)
Definition sqrt_gt (a : number) (k : Q) : bool :=
  match a with
  | Fin q => Qlt_bool (k * k) q
  | NaN => false
  end.

(** The numbers on which the rational arithmetic of this model and the
    binary64 arithmetic of the code agree throughout the distance test of
    [_mouseMove]: for whole numbers of magnitude at most 2^25 the
    differences, their squares and the sum of two squares are whole
    numbers below 2^53, which binary64 holds exactly, and the correctly
    rounded square root of a whole number exceeds 3 exactly when the
    number exceeds 9.  Away from them binary64 rounds, and [Math.pow] is
    only required to approximate: the doubles nearest 0.1 and 3.1 lie
    more than 3 apart, and their binary64 difference is 3. *)
Definition whole (q : Q) : bool :=
  Qeq_bool q (inject_Z (Qfloor q))
  && Qle_bool (inject_Z (- 2 ^ 25)) q && Qle_bool q (inject_Z (2 ^ 25)).

(** A method either returns or raises a [TypeError] (reading a property
    of [undefined]). *)
Inductive outcome (A : Type) := Ok (a : A) | TypeError.
Arguments Ok {A} a.
Arguments TypeError {A}.

Definition bind {A B} (c : outcome A) (k : A -> outcome B) : outcome B :=
  match c with
  | Ok a => k a
  | TypeError => TypeError
  end.

End Js.

Notation "x <- c ;; k" := (Js.bind c (fun x => k))
  (at level 61, c at next level, right associativity).

(** ** mouse-drag-handler *)

Module MouseDrag.
Import Js.

Record Touch := { touch_clientX : Q; touch_clientY : Q }.

(** A native DOM event as the handlers read it.  A [MouseEvent] carries
    [clientX]/[clientY]; a [TouchEvent] and a [FocusEvent] (blur) do not,
    so the fields are [Undefined] there. *)
Record DomEvent := {
  type : string;
  clientX : value;
  clientY : value;
  touches : list Touch;
  changedTouches : list Touch;
  cancelable : bool
}.

(** Konva's node tree, as far as [getMarkerObject] walks it. *)
#[warnings="-register-all"]
Inductive Node := MkNode (isLayer : bool) (draggable : bool) (parent : option Node).

Definition node_isLayer (n : Node) : bool := let (l, _, _) := n in l.
Definition node_draggable (n : Node) : bool := let (_, d, _) := n in d.

Fixpoint getMarkerObject (obj : Node) : option Node :=
  match obj with
  | MkNode _ _ None => None
  | MkNode _ _ (Some p) =>
      if node_isLayer p then Some obj else getMarkerObject p
  end.

(** The event object Konva passes to a stage listener. *)
Record KonvaEvent := { ktype : string; evt : DomEvent; target : Node }.

(** Which of the caller's handlers are supplied. *)
Record MouseDragHandlers := {
  onMouseDown : bool;
  onMouseMove : bool;
  onMouseUp : bool;
  onMouseWheel : bool
}.

Record Options := { preventContextMenu : bool }.

(** The object's fields.  [__handleDrag] (two underscores) is the field
    [_mouseDown] tests; no code assigns it, the constructor sets
    [_handleDrag]. *)
Record MouseDragHandler := {
  _handlers : MouseDragHandlers;
  _dragging : bool;
  _options : Options;
  _handleDrag : bool;
  __handleDrag : value;
  _mouseDownClientX : value;
  _mouseDownClientY : value
}.

(** The bound methods registered as listeners. *)
Inductive Listener := L_mouseDown | L_mouseUp | L_mouseMove | L_mouseWheel | L_contextMenu.

Definition Listener_eqb (a b : Listener) : bool :=
  match a, b with
  | L_mouseDown, L_mouseDown | L_mouseUp, L_mouseUp | L_mouseMove, L_mouseMove
  | L_mouseWheel, L_mouseWheel | L_contextMenu, L_contextMenu => true
  | _, _ => false
  end.

Definition Registration := (string * Listener)%type.

Definition same (ty : string) (m : Listener) (r : Registration) : bool :=
  String.eqb ty (fst r) && Listener_eqb m (snd r).

(** [target.addEventListener(ty, m, false)]: a registration already
    present is not added again. *)
Definition addEventListener (ty : string) (m : Listener) (ls : list Registration) :=
  if existsb (same ty m) ls then ls else ls ++ [(ty, m)].

Definition removeEventListener (ty : string) (m : Listener) (ls : list Registration) :=
  filter (fun r => negb (same ty m r)) ls.

Record DOMRect := { rect_left : Q; rect_top : Q }.

(** The environment the object lives in: the listeners it has on the
    window, on the Konva stage and on the container element, and the
    container's bounding rectangle at this moment. *)
Record Dom := {
  window_listeners : list Registration;
  stage_listeners : list Registration;
  container_listeners : list Registration;
  containerPos : DOMRect
}.

(** Calls of the caller's handlers (the raw event, passed through as the
    last argument, is left out). *)
Inductive HandlerCall :=
| call_onMouseDown (x y : number)
| call_onMouseMove (kind : string) (x y : number)
| call_onMouseUp (x y : number)
| call_onMouseWheel.

(** What the object does to the outside.  A handler call records what the
    callee can observe at that moment: [isDragging()] and the window
    listeners. *)
Inductive Effect :=
| Host (c : HandlerCall) (isDragging_seen : bool) (listening_seen : list Registration)
| PreventDefault.

Record World := {
  this : MouseDragHandler;
  dom : Dom;
  trace : list Effect
}.

Definition set_this (f : MouseDragHandler -> MouseDragHandler) (w : World) : World :=
  {| this := f (this w); dom := dom w; trace := trace w |}.

Definition set_window (f : list Registration -> list Registration) (w : World) : World :=
  {| this := this w;
     dom := {| window_listeners := f (window_listeners (dom w));
               stage_listeners := stage_listeners (dom w);
               container_listeners := container_listeners (dom w);
               containerPos := containerPos (dom w) |};
     trace := trace w |}.

Definition emit (e : Effect) (w : World) : World :=
  {| this := this w; dom := dom w; trace := trace w ++ [e] |}.

Definition host (c : HandlerCall) (w : World) : World :=
  emit (Host c (_dragging (this w)) (window_listeners (dom w))) w.

Definition set_dragging (b : bool) (o : MouseDragHandler) : MouseDragHandler :=
  {| _handlers := _handlers o; _dragging := b; _options := _options o;
     _handleDrag := _handleDrag o; __handleDrag := __handleDrag o;
     _mouseDownClientX := _mouseDownClientX o;
     _mouseDownClientY := _mouseDownClientY o |}.

Definition set_mouseDownClient (x y : value) (o : MouseDragHandler) : MouseDragHandler :=
  {| _handlers := _handlers o; _dragging := _dragging o; _options := _options o;
     _handleDrag := _handleDrag o; __handleDrag := __handleDrag o;
     _mouseDownClientX := x;
     _mouseDownClientY := y |}.

(** [new MouseDragHandler(stage, handlers, options)] in a DOM where the
    object has no listener yet. *)
Definition construct (handlers : MouseDragHandlers) (options : Options)
    (pos : DOMRect) : World :=
  {| this := {| _handlers := handlers; _dragging := false; _options := options;
                _handleDrag := false; __handleDrag := Undefined;
                _mouseDownClientX := Null; _mouseDownClientY := Null |};
     dom := {| window_listeners := [];
               stage_listeners := [("mousedown", L_mouseDown);
                                   ("touchstart", L_mouseDown);
                                   ("contextmenu", L_contextMenu)];
               container_listeners := addEventListener "wheel" L_mouseWheel [];
               containerPos := pos |};
     trace := [] |}.

(** [this._stage.getContainer().getBoundingClientRect()] *)
Definition getBoundingClientRect (w : World) : DOMRect := containerPos (dom w).

Definition _getMousePosX (w : World) (clientX : value) : number :=
  let containerPos := getBoundingClientRect w in
  sub clientX (Num (Fin (rect_left containerPos))).

Definition _getMousePosY (w : World) (clientY : value) : number :=
  let containerPos := getBoundingClientRect w in
  sub clientY (Num (Fin (rect_top containerPos))).

Definition isDragging (w : World) : bool := _dragging (this w).

Definition _contextMenu (event : KonvaEvent) (w : World) : outcome World :=
  if preventContextMenu (_options (this w)) then Ok (emit PreventDefault w) else Ok w.

Definition window_add_all (ls : list Registration) : list Registration :=
  addEventListener "blur" L_mouseUp
    (addEventListener "touchend" L_mouseUp
      (addEventListener "mouseup" L_mouseUp
        (addEventListener "touchmove" L_mouseMove
          (addEventListener "mousemove" L_mouseMove ls)))).

Definition window_remove_all (ls : list Registration) : list Registration :=
  removeEventListener "blur" L_mouseUp
    (removeEventListener "touchend" L_mouseUp
      (removeEventListener "mouseup" L_mouseUp
        (removeEventListener "touchmove" L_mouseMove
          (removeEventListener "mousemove" L_mouseMove ls)))).

Definition marker_is_draggable (n : Node) : bool :=
  match getMarkerObject n with
  | Some marker => node_draggable marker
  | None => false
  end.

Definition _mouseDown (event : KonvaEvent) (w : World) : outcome World :=
  if truthy (__handleDrag (this w)) && marker_is_draggable (target event)
  then Ok w
  else
    w1 <- (if String.eqb (ktype event) "touchstart"
           then match touches (evt event) with
                | t :: _ =>
                    Ok (set_this (set_mouseDownClient (floor (touch_clientX t))
                                                      (floor (touch_clientY t))) w)
                | [] => TypeError
                end
           else Ok (set_this (set_mouseDownClient (clientX (evt event))
                                                  (clientY (evt event))) w)) ;;
    let w2 :=
      if onMouseDown (_handlers (this w1))
      then
        let mouseDownPosX := _getMousePosX w1 (_mouseDownClientX (this w1)) in
        let mouseDownPosY := _getMousePosY w1 (clientY (evt event)) in
        host (call_onMouseDown mouseDownPosX mouseDownPosY) w1
      else w1 in
    Ok (set_window window_add_all w2).

Definition _mouseWheel (event : DomEvent) (w : World) : outcome World :=
  if onMouseWheel (_handlers (this w)) then Ok (host call_onMouseWheel w) else Ok w.

(** The client position a window event is read at. *)
Definition client_of (touchType : string) (event : DomEvent) : outcome (value * value) :=
  if String.eqb (type event) touchType
  then match changedTouches event with
       | t :: _ => Ok (floor (touch_clientX t), floor (touch_clientY t))
       | [] => TypeError
       end
  else Ok (clientX event, clientY event).

(** [Math.sqrt(Math.pow(clientX - x0, 2) + Math.pow(clientY - y0, 2)) > 3],
    decided on exact rationals; the code decides it in binary64, with the
    same outcome when the four coordinates are [whole]. *)
Definition exceeds (o : MouseDragHandler) (cx cy : value) : bool :=
  sqrt_gt (add (pow2 (sub cx (_mouseDownClientX o)))
               (pow2 (sub cy (_mouseDownClientY o)))) 3.

Definition _mouseMove (event : DomEvent) (w : World) : outcome World :=
  c <- client_of "touchmove" event ;;
  let '(cx, cy) := c in
  let w1 := if exceeds (this w) cx cy then set_this (set_dragging true) w else w in
  if onMouseMove (_handlers (this w1))
  then
    let mousePosX := _getMousePosX w1 cx in
    let mousePosY := _getMousePosY w1 cy in
    Ok (host (call_onMouseMove (type event) mousePosX mousePosY) w1)
  else Ok w1.

Definition _mouseUp (event : DomEvent) (w : World) : outcome World :=
  c <- client_of "touchend" event ;;
  let '(cx, cy) := c in
  let w0 := if String.eqb (type event) "touchend" && cancelable event
            then emit PreventDefault w else w in
  let w1 :=
    if onMouseUp (_handlers (this w0))
    then
      let mousePosX := _getMousePosX w0 cx in
      let mousePosY := _getMousePosY w0 cy in
      host (call_onMouseUp mousePosX mousePosY) w0
    else w0 in
  let w2 := set_window window_remove_all w1 in
  Ok (set_this (set_dragging false) w2).

(** *** Event delivery *)

(** The window calls the listeners registered for the event's type, in
    registration order; one removed while the event is being delivered is
    not called.  Only [_mouseMove] and [_mouseUp] are ever registered on
    the window, [_mouseWheel] on the container. *)
Definition call_listener (m : Listener) (event : DomEvent) (w : World) : outcome World :=
  match m with
  | L_mouseMove => _mouseMove event w
  | L_mouseUp => _mouseUp event w
  | L_mouseWheel => _mouseWheel event w
  | L_mouseDown | L_contextMenu => Ok w
  end.

Fixpoint deliver (rs : list Registration) (event : DomEvent) (w : World) : outcome World :=
  match rs with
  | [] => Ok w
  | r :: rest =>
      if String.eqb (fst r) (type event)
         && existsb (same (fst r) (snd r)) (window_listeners (dom w))
      then w' <- call_listener (snd r) event w ;; deliver rest event w'
      else deliver rest event w
  end.

Definition window_dispatchEvent (event : DomEvent) (w : World) : outcome World :=
  deliver (window_listeners (dom w)) event w.

(** Konva fires a stage event to the listeners [stage.on] registered. *)
Definition call_stage_listener (m : Listener) (event : KonvaEvent) (w : World) : outcome World :=
  match m with
  | L_mouseDown => _mouseDown event w
  | L_contextMenu => _contextMenu event w
  | _ => Ok w
  end.

Fixpoint stage_deliver (rs : list Registration) (event : KonvaEvent) (w : World) : outcome World :=
  match rs with
  | [] => Ok w
  | r :: rest =>
      if String.eqb (fst r) (ktype event)
      then w' <- call_stage_listener (snd r) event w ;; stage_deliver rest event w'
      else stage_deliver rest event w
  end.

Definition stage_fire (event : KonvaEvent) (w : World) : outcome World :=
  stage_deliver (stage_listeners (dom w)) event w.

(** The page is laid out again: the container's rectangle changes. *)
Definition relayout (r : DOMRect) (w : World) : World :=
  {| this := this w;
     dom := {| window_listeners := window_listeners (dom w);
               stage_listeners := stage_listeners (dom w);
               container_listeners := container_listeners (dom w);
               containerPos := r |};
     trace := trace w |}.

Fixpoint window_run (events : list DomEvent) (w : World) : outcome World :=
  match events with
  | [] => Ok w
  | e :: rest => w' <- window_dispatchEvent e w ;; window_run rest w'
  end.

(** *** Well-formed events of the host *)

Definition mouse_event (ty : string) (x y : Q) : DomEvent :=
  {| type := ty; clientX := Num (Fin x); clientY := Num (Fin y);
     touches := []; changedTouches := []; cancelable := true |}.

Definition touch_event (ty : string) (active changed : list Touch) (c : bool) : DomEvent :=
  {| type := ty; clientX := Undefined; clientY := Undefined;
     touches := active; changedTouches := changed; cancelable := c |}.

Definition blur_event : DomEvent :=
  {| type := "blur"; clientX := Undefined; clientY := Undefined;
     touches := []; changedTouches := []; cancelable := false |}.

Inductive Press :=
| MousePress (x y : Q) (on : Node)
| TouchPress (first : Touch) (others : list Touch) (on : Node).

Definition press_event (p : Press) : KonvaEvent :=
  match p with
  | MousePress x y n =>
      {| ktype := "mousedown"; evt := mouse_event "mousedown" x y; target := n |}
  | TouchPress t ts n =>
      {| ktype := "touchstart";
         evt := touch_event "touchstart" (t :: ts) (t :: ts) true; target := n |}
  end.

Definition floorQ (q : Q) : Q := inject_Z (Qfloor q).

(** The origin a press records. *)
Definition origin (p : Press) : Q * Q :=
  match p with
  | MousePress x y _ => (x, y)
  | TouchPress t _ _ => (floorQ (touch_clientX t), floorQ (touch_clientY t))
  end.

Inductive Move :=
| MouseMove (x y : Q)
| TouchMove (first : Touch) (others : list Touch).

Definition move_event (m : Move) : DomEvent :=
  match m with
  | MouseMove x y => mouse_event "mousemove" x y
  | TouchMove t ts => touch_event "touchmove" (t :: ts) (t :: ts) true
  end.

(** The client position a move is read at. *)
Definition position (m : Move) : Q * Q :=
  match m with
  | MouseMove x y => (x, y)
  | TouchMove t _ => (floorQ (touch_clientX t), floorQ (touch_clientY t))
  end.

Inductive Release :=
| MouseUp (x y : Q)
| TouchEnd (first : Touch) (others : list Touch) (cancelable : bool)
| Blur.

Definition release_event (r : Release) : DomEvent :=
  match r with
  | MouseUp x y => mouse_event "mouseup" x y
  | TouchEnd t ts c => touch_event "touchend" ts (t :: ts) c
  | Blur => blur_event
  end.

(** The client position [_mouseUp] reads from a release. *)
Definition release_client (r : Release) : value * value :=
  match r with
  | MouseUp x y => (Num (Fin x), Num (Fin y))
  | TouchEnd t _ _ => (floor (touch_clientX t), floor (touch_clientY t))
  | Blur => (Undefined, Undefined)
  end.

Definition release_prevented (r : Release) : list Effect :=
  match r with
  | TouchEnd _ _ true => [PreventDefault]
  | _ => []
  end.

(** Both coordinates are whole numbers of pixels, of moderate size. *)
Definition whole_point (o : Q * Q) : bool := whole (fst o) && whole (snd o).

(** Squared Euclidean distance, and the 3 pixel threshold on it. *)
Definition dist2 (o p : Q * Q) : Q := (fst p - fst o) ^ 2 + (snd p - snd o) ^ 2.

Definition beyond (o p : Q * Q) : bool := Qlt_bool (3 * 3) (dist2 o p).

(** The handler calls of a trace, without what the callee observed. *)
Definition calls (t : list Effect) : list HandlerCall :=
  flat_map (fun e => match e with Host c _ _ => [c] | PreventDefault => [] end) t.

(** The object is as its constructor wired it: the stage listeners are
    the constructor's and [__handleDrag] was never assigned. *)
Definition Wired (w : World) : Prop :=
  stage_listeners (dom w)
  = [("mousedown", L_mouseDown); ("touchstart", L_mouseDown); ("contextmenu", L_contextMenu)]
  /\ __handleDrag (this w) = Undefined.

(** No session is open: nothing is registered on the window and the
    dragging flag is down, as after construction or a release. *)
Definition Idle (w : World) : Prop :=
  Wired w /\ window_listeners (dom w) = [] /\ _dragging (this w) = false.

(** A session is open: the five window listeners of a press are there. *)
Definition InSession (w : World) : Prop :=
  Wired w /\ window_listeners (dom w) = window_add_all [].

(** The origin recorded by the last press. *)
Definition origin_is (o : Q * Q) (w : World) : Prop :=
  _mouseDownClientX (this w) = Num (Fin (fst o))
  /\ _mouseDownClientY (this w) = Num (Fin (snd o)).

(** Every method of the prototype, as a call. *)
Inductive MethodCall :=
| m_contextMenu (event : KonvaEvent)
| m_mouseDown (event : KonvaEvent)
| m_mouseWheel (event : DomEvent)
| m_mouseMove (event : DomEvent)
| m_mouseUp (event : DomEvent)
| m_getMousePosX (clientX : value)
| m_getMousePosY (clientY : value)
| m_isDragging.

Definition is_mouseUp (c : MethodCall) : bool :=
  match c with m_mouseUp _ => true | _ => false end.

Definition invoke (c : MethodCall) (w : World) : outcome World :=
  match c with
  | m_contextMenu e => _contextMenu e w
  | m_mouseDown e => _mouseDown e w
  | m_mouseWheel e => _mouseWheel e w
  | m_mouseMove e => _mouseMove e w
  | m_mouseUp e => _mouseUp e w
  | m_getMousePosX _ | m_getMousePosY _ | m_isDragging => Ok w
  end.

Definition all_handlers : MouseDragHandlers :=
  {| onMouseDown := true; onMouseMove := true; onMouseUp := true; onMouseWheel := true |}.

Definition plain_node : Node := MkNode false false None.

Definition no_options : Options := {| preventContextMenu := false |}.

(** The object in the middle of a drag: constructed with the container at
    (50, 20), then pressed with the mouse at (100, 100). *)
Definition pressed_world : World :=
  set_window window_add_all
    (host (call_onMouseDown (Fin 50) (Fin 80))
       (set_this (set_mouseDownClient (Num (Fin 100)) (Num (Fin 100)))
          (construct all_handlers no_options {| rect_left := 50; rect_top := 20 |}))).

(** *** The node tree, declaratively *)

Definition node_parent (n : Node) : option Node := let (_, _, p) := n in p.

(** The node and its ancestors, nearest first. *)
Fixpoint chain (obj : Node) : list Node :=
  match obj with
  | MkNode _ _ None => [obj]
  | MkNode _ _ (Some p) => obj :: chain p
  end.

(** [n.parent instanceof Konva.Layer] *)
Definition child_of_layer (n : Node) : bool :=
  match node_parent n with
  | Some p => node_isLayer p
  | None => false
  end.

(** A draggable marker directly under a layer. *)
Definition draggable_marker : Node := MkNode false true (Some (MkNode true false None)).

(** *** Runs of method calls *)

(** A listener that raises leaves the object as it was: each handler reads
    the touch list before it writes anything. *)
Definition recover (o : outcome World) (w : World) : World :=
  match o with
  | Ok w' => w'
  | TypeError => w
  end.

Definition method_run (cs : list MethodCall) (w : World) : World :=
  fold_left (fun acc c => recover (invoke c acc) acc) cs w.

Definition no_handlers : MouseDragHandlers :=
  {| onMouseDown := false; onMouseMove := false; onMouseUp := false; onMouseWheel := false |}.

(** The event types [_mouseDown] listens to on the window. *)
Definition window_types : list string :=
  ["mousemove"; "touchmove"; "mouseup"; "touchend"; "blur"].

End MouseDrag.

(** ** segments-layer *)

Module Segments.
Import Js.

(** A segment object is identified with its [id]: ids are unique and
    stable, and every reference to a segment in the layer's code is used
    through [segment.id] or through the object's current fields, which the
    heap of the [World] below holds. *)
Definition Id := string.

Record Segment := { startTime : Q; endTime : Q; hidden : bool }.

(** [segment.isVisible(startTime, endTime)] is defined in segment.js, which
    is not among the sources: the layer is parametrised by it. *)
Class Visibility := isVisible : Segment -> Q -> Q -> bool.

(** Modelled from the spec: [Segment.prototype.isVisible], missing from the
    sources, tells whether the segment overlaps the time range
    [[startTime, endTime)]. *)
Definition overlaps (s : Segment) (startTime' endTime' : Q) : bool :=
  Qlt_bool (startTime s) endTime' && Qlt_bool startTime' (endTime s).

(** [segment.isHidden(true)] *)
Definition isHidden_set (b : bool) (s : Segment) : Segment :=
  {| startTime := startTime s; endTime := endTime s; hidden := b |}.

(** The view, as the layer consults it. *)
Record View := {
  getName : string;
  getFrameOffset : Z;
  getWidth : Z;
  pixelsToTime : Z -> Q
}.

(** A [SegmentShape] object: [serial] tells shape objects apart (two can
    be made for one segment), [getSegment] is the segment it was made
    for. *)
Record SegmentShape := { serial : nat; getSegment : Id }.

(** Calls on the opaque collaborators: the shapes and the Konva layer. *)
Inductive Call :=
| new_SegmentShape (sh : SegmentShape) (editing : bool)
| shape_addToLayer (sh : SegmentShape)
| shape_updatePosition (sh : SegmentShape)
| shape_hide (sh : SegmentShape)
| shape_destroy (sh : SegmentShape)
| shape_render (sh : SegmentShape)
| shape_fitToView (sh : SegmentShape)
| layer_draw
| layer_removeChildren
| layer_setVisible (visible : bool)
| stage_add.

(** The bound handlers the constructor subscribes. *)
Inductive Handler :=
| H_onSegmentsUpdate | H_onSegmentsAdd | H_onSegmentsRemove
| H_onSegmentsHide | H_onSegmentsRemoveAll | H_onSegmentsDragged.

Definition Handler_eqb (a b : Handler) : bool :=
  match a, b with
  | H_onSegmentsUpdate, H_onSegmentsUpdate | H_onSegmentsAdd, H_onSegmentsAdd
  | H_onSegmentsRemove, H_onSegmentsRemove | H_onSegmentsHide, H_onSegmentsHide
  | H_onSegmentsRemoveAll, H_onSegmentsRemoveAll
  | H_onSegmentsDragged, H_onSegmentsDragged => true
  | _, _ => false
  end.

Definition Subscription := (string * Handler)%type.

(** [_segmentShapes] is a plain object used as a map from segment id to
    shape: the list holds its own properties, in the order of their
    insertion (the order of enumeration, for ids that are not array
    indices). *)
Definition ShapeMap := list (Id * SegmentShape).

(** The property names a plain object inherits from [Object.prototype]. *)
Definition Object_prototype : list string :=
  ["constructor"; "__defineGetter__"; "__defineSetter__"; "hasOwnProperty";
   "__lookupGetter__"; "__lookupSetter__"; "isPrototypeOf"; "propertyIsEnumerable";
   "toString"; "valueOf"; "__proto__"; "toLocaleString"].

Definition inherited (k : Id) : bool := existsb (String.eqb k) Object_prototype.

(** An id that names no property of [Object.prototype].  For such an id
    [m[k]] is the own property or [undefined], which is what [lookup]
    returns.  For any other id without an own property the read yields
    the inherited value, truthy and not a shape, and the method called on
    it raises a [TypeError]: the layer's methods are modelled on [Plain]
    ids, and what is stated about an id that may hold no shape assumes
    it. *)
Definition Plain (k : Id) : Prop := inherited k = false.

(** [m[k]], the own property under [k]. *)
Fixpoint lookup (k : Id) (m : ShapeMap) : option SegmentShape :=
  match m with
  | [] => None
  | (k', v) :: rest => if String.eqb k k' then Some v else lookup k rest
  end.

(** What the read [m[k]] yields for any id: the own property; else, for a
    name of [Object.prototype], the inherited value (a function, or the
    prototype itself for "__proto__"), which is truthy and has none of
    the methods of a shape; else [undefined]. *)
Inductive Slot := own (sh : SegmentShape) | from_prototype | undefined.

Definition get (k : Id) (m : ShapeMap) : Slot :=
  match lookup k m with
  | Some sh => own sh
  | None => if inherited k then from_prototype else undefined
  end.

(** [Boolean(slot)] *)
Definition Boolean (slot : Slot) : bool :=
  match slot with undefined => false | _ => true end.


(** [m[k] = v]: an existing key keeps its place. *)
Fixpoint assign (k : Id) (v : SegmentShape) (m : ShapeMap) : ShapeMap :=
  match m with
  | [] => [(k, v)]
  | (k', v') :: rest =>
      if String.eqb k k' then (k, v) :: rest else (k', v') :: assign k v rest
  end.

(** [delete m[k]] *)
Definition delete (k : Id) (m : ShapeMap) : ShapeMap :=
  filter (fun e => negb (String.eqb k (fst e))) m.

Definition keys (m : ShapeMap) : list Id := map fst m.

Definition values (m : ShapeMap) : list SegmentShape := map snd m.

(** The layer's own fields; [allocated] counts the shapes constructed so
    far and gives the next one its [serial]. *)
Record SegmentsLayer := {
  _allowEditing : bool;
  _segmentShapes : ShapeMap;
  allocated : nat
}.

(** The layer with what it works on: the view, the segment objects
    ([heap]), the ids of the segments in the store ([peaks.segments]), the
    subscriptions [peaks] holds, and the calls made so far. *)
Record World := {
  this : SegmentsLayer;
  view : View;
  heap : Id -> Segment;
  store : list Id;
  subscriptions : list Subscription;
  trace : list Call
}.

Definition set_shapes (m : ShapeMap) (w : World) : World :=
  {| this := {| _allowEditing := _allowEditing (this w);
                _segmentShapes := m;
                allocated := allocated (this w) |};
     view := view w; heap := heap w; store := store w;
     subscriptions := subscriptions w; trace := trace w |}.

Definition set_heap (h : Id -> Segment) (w : World) : World :=
  {| this := this w; view := view w; heap := h; store := store w;
     subscriptions := subscriptions w; trace := trace w |}.

Definition set_store (l : list Id) (w : World) : World :=
  {| this := this w; view := view w; heap := heap w; store := l;
     subscriptions := subscriptions w; trace := trace w |}.

Definition set_subscriptions (l : list Subscription) (w : World) : World :=
  {| this := this w; view := view w; heap := heap w; store := store w;
     subscriptions := l; trace := trace w |}.

(** The heap with the object [i] replaced. *)
Definition write (i : Id) (s : Segment) (h : Id -> Segment) : Id -> Segment :=
  fun j => if String.eqb j i then s else h j.

Definition emit (c : Call) (w : World) : World :=
  {| this := this w; view := view w; heap := heap w; store := store w;
     subscriptions := subscriptions w; trace := trace w ++ [c] |}.

(** [xs.forEach(f)] *)
Definition forEach {A} (xs : list A) (f : A -> World -> World) (w : World) : World :=
  fold_left (fun acc x => f x acc) xs w.

(** Modelled from the spec: [peaks.on], [peaks.off] and [peaks.emit] are
    the store's subscribe and unsubscribe by topic; they belong to the
    event emitter of [peaks], which is not among the sources. *)
Definition on (topic : string) (h : Handler) (w : World) : World :=
  set_subscriptions (subscriptions w ++ [(topic, h)]) w.

Fixpoint remove_first (topic : string) (h : Handler) (l : list Subscription) : list Subscription :=
  match l with
  | [] => []
  | s :: rest =>
      if String.eqb topic (fst s) && Handler_eqb h (snd s)
      then rest else s :: remove_first topic h rest
  end.

Definition off (topic : string) (h : Handler) (w : World) : World :=
  set_subscriptions (remove_first topic h (subscriptions w)) w.

Section Layer.
Context {visibility : Visibility}.

(** Modelled from the spec: [peaks.segments.find(startTime, endTime)] is
    the store's query by time range, defined in waveform-segments.js, which
    is not among the sources: all segments of the store overlapping the
    range. *)
Definition find (startTime' endTime' : Q) (w : World) : list Id :=
  filter (fun i => isVisible (heap w i) startTime' endTime') (store w).

(** *** The methods *)

Definition construct (v : View) (allowEditing : bool) (h : Id -> Segment)
    (stored : list Id) : World :=
  on "segments.dragged" H_onSegmentsDragged
    (on "segments.remove_all" H_onSegmentsRemoveAll
      (on "segments.hide" H_onSegmentsHide
        (on "segments.remove" H_onSegmentsRemove
          (on "segments.add" H_onSegmentsAdd
            (on "segments.update" H_onSegmentsUpdate
               {| this := {| _allowEditing := allowEditing;
                             _segmentShapes := [];
                             allocated := 0 |};
                  view := v; heap := h; store := stored;
                  subscriptions := []; trace := [] |}))))).

Definition addToStage (w : World) : World := emit stage_add w.

Definition enableEditing (enable : bool) (w : World) : World :=
  {| this := {| _allowEditing := enable;
                _segmentShapes := _segmentShapes (this w);
                allocated := allocated (this w) |};
     view := view w; heap := heap w; store := store w;
     subscriptions := subscriptions w; trace := trace w |}.

Definition isEditingEnabled (w : World) : bool := _allowEditing (this w).

Definition is_overview (w : World) : bool := String.eqb (getName (view w)) "overview".

Definition draw (w : World) : World :=
  if is_overview w then w else emit layer_draw w.

(** [new SegmentShape(segment, this._peaks, this, this._view)] *)
Definition _createSegmentShape (segment : Id) (w : World) : SegmentShape * World :=
  let sh := {| serial := allocated (this w); getSegment := segment |} in
  (sh,
   emit (new_SegmentShape sh (_allowEditing (this w)))
     {| this := {| _allowEditing := _allowEditing (this w);
                   _segmentShapes := _segmentShapes (this w);
                   allocated := S (allocated (this w)) |};
        view := view w; heap := heap w; store := store w;
        subscriptions := subscriptions w; trace := trace w |}).

Definition _addSegmentShape (segment : Id) (w : World) : SegmentShape * World :=
  let '(segmentShape, w1) := _createSegmentShape segment w in
  let w2 := if negb (is_overview w1) then emit (shape_addToLayer segmentShape) w1 else w1 in
  (segmentShape, set_shapes (assign segment segmentShape (_segmentShapes (this w2))) w2).

Definition _findOrAddSegmentShape (segment : Id) (w : World) : SegmentShape * World :=
  match lookup segment (_segmentShapes (this w)) with
  | Some segmentShape => (segmentShape, w)
  | None => _addSegmentShape segment w
  end.

Definition _updateSegment (segment : Id) (w : World) : World :=
  let '(segmentShape, w1) := _findOrAddSegmentShape segment w in
  emit (shape_updatePosition segmentShape) w1.

Definition _removeSegment (segment : Id) (w : World) : World :=
  match lookup segment (_segmentShapes (this w)) with
  | Some segmentShape =>
      set_shapes (delete segment (_segmentShapes (this w)))
        (emit (shape_destroy segmentShape) w)
  | None => w
  end.

(** The [for ... in] loop of [_removeInvisibleSegments] over the keys the
    map had when the loop began; a key deleted meanwhile is passed over. *)
Fixpoint removeInvisible_loop (ids : list Id) (startTime' endTime' : Q)
    (count : nat) (w : World) : nat * World :=
  match ids with
  | [] => (count, w)
  | segmentId :: rest =>
      match lookup segmentId (_segmentShapes (this w)) with
      | Some sh =>
          let segment := getSegment sh in
          if negb (isVisible (heap w segment) startTime' endTime')
          then removeInvisible_loop rest startTime' endTime' (S count)
                 (_removeSegment segment w)
          else removeInvisible_loop rest startTime' endTime' count w
      | None => removeInvisible_loop rest startTime' endTime' count w
      end
  end.

Definition _removeInvisibleSegments (startTime' endTime' : Q) (w : World) : nat * World :=
  removeInvisible_loop (keys (_segmentShapes (this w))) startTime' endTime' 0 w.

Definition updateSegments (startTime' endTime' : Q) (w : World) : World :=
  let segments := find startTime' endTime' w in
  let count := List.length segments in
  let w1 := forEach segments _updateSegment w in
  let '(removed, w2) := _removeInvisibleSegments startTime' endTime' w1 in
  if (0 <? count + removed)%nat then draw w2 else w2.

Definition frameStartTime (w : World) : Q :=
  pixelsToTime (view w) (getFrameOffset (view w)).

Definition frameEndTime (w : World) : Q :=
  pixelsToTime (view w) (getFrameOffset (view w) + getWidth (view w)).

Definition _onSegmentsUpdate (segment : Id) (w : World) : World :=
  let segmentShape := lookup segment (_segmentShapes (this w)) in
  let t0 := frameStartTime w in
  let t1 := frameEndTime w in
  let '(redraw1, w1) :=
    match segmentShape with
    | Some _ => (true, _removeSegment segment w)
    | None => (false, w)
    end in
  let '(redraw, w2) :=
    if isVisible (heap w1 segment) t0 t1
    then (true, snd (_addSegmentShape segment w1))
    else (redraw1, w1) in
  if redraw then updateSegments t0 t1 w2 else w2.

Definition _onSegmentsAdd (segments : list Id) (w : World) : World :=
  let t0 := frameStartTime w in
  let t1 := frameEndTime w in
  let w1 :=
    forEach segments
      (fun segment acc =>
         if isVisible (heap acc segment) t0 t1
         then snd (_addSegmentShape segment acc) else acc) w in
  updateSegments t0 t1 w1.

Definition _hideSegment (segment : Id) (w : World) : World :=
  match lookup segment (_segmentShapes (this w)) with
  | Some segmentShape =>
      let w1 := emit (shape_hide segmentShape) w in
      set_heap (write segment (isHidden_set true (heap w1 segment)) (heap w1)) w1
  | None => w
  end.

Definition _onSegmentsHide (segments : list Id) (w : World) : World :=
  draw (forEach segments _hideSegment w).

Definition _onSegmentsRemove (segments : list Id) (w : World) : World :=
  draw (forEach segments _removeSegment w).

Definition _onSegmentsRemoveAll (w : World) : World :=
  draw (set_shapes [] (emit layer_removeChildren w)).

Definition _onSegmentsDragged (segment : Id) (w : World) : World :=
  draw (_updateSegment segment w).

Definition setVisible (visible : bool) (w : World) : World :=
  emit (layer_setVisible visible) w.

(** [segmentShape.render()]: on what is not a shape, [render] is not a
    function. *)
Definition render (segmentShape : Slot) (w : World) : outcome World :=
  match segmentShape with
  | own sh => Ok (emit (shape_render sh) w)
  | _ => TypeError
  end.

Definition renderSegments (segmentIds : list Id) (w : World) : outcome World :=
  let segmentShapes :=
    filter Boolean (map (fun id => get id (_segmentShapes (this w))) segmentIds) in
  fold_left (fun acc segmentShape => w' <- acc ;; render segmentShape w')
            segmentShapes (Ok w).

Definition destroy (w : World) : World :=
  let w1 := forEach (values (_segmentShapes (this w)))
              (fun segmentShape => emit (shape_destroy segmentShape)) w in
  off "segments.dragged" H_onSegmentsDragged
    (off "segments.remove_all" H_onSegmentsRemoveAll
      (off "segments.remove" H_onSegmentsRemove
        (off "segments.add" H_onSegmentsAdd
          (off "segments.update" H_onSegmentsUpdate w1)))).

Definition fitToView (w : World) : World :=
  forEach (values (_segmentShapes (this w)))
    (fun segmentShape => emit (shape_fitToView segmentShape)) w.

(** *** Notifications *)

Inductive Notification :=
| N_update (segment : Id)
| N_add (segments : list Id)
| N_remove (segments : list Id)
| N_hide (segments : list Id)
| N_remove_all
| N_dragged (segment : Id).

Definition topic (n : Notification) : string :=
  match n with
  | N_update _ => "segments.update"
  | N_add _ => "segments.add"
  | N_remove _ => "segments.remove"
  | N_hide _ => "segments.hide"
  | N_remove_all => "segments.remove_all"
  | N_dragged _ => "segments.dragged"
  end.

(** The handler the layer has for a notification. *)
Definition handle (n : Notification) (w : World) : World :=
  match n with
  | N_update segment => _onSegmentsUpdate segment w
  | N_add segments => _onSegmentsAdd segments w
  | N_remove segments => _onSegmentsRemove segments w
  | N_hide segments => _onSegmentsHide segments w
  | N_remove_all => _onSegmentsRemoveAll w
  | N_dragged segment => _onSegmentsDragged segment w
  end.

Definition call_handler (h : Handler) (n : Notification) (w : World) : World :=
  match h, n with
  | H_onSegmentsUpdate, N_update segment => _onSegmentsUpdate segment w
  | H_onSegmentsAdd, N_add segments => _onSegmentsAdd segments w
  | H_onSegmentsRemove, N_remove segments => _onSegmentsRemove segments w
  | H_onSegmentsHide, N_hide segments => _onSegmentsHide segments w
  | H_onSegmentsRemoveAll, N_remove_all => _onSegmentsRemoveAll w
  | H_onSegmentsDragged, N_dragged segment => _onSegmentsDragged segment w
  | _, _ => w
  end.

(** Modelled from the spec: [peaks.emit(topic, payload)] calls the
    handlers subscribed to the topic, in subscription order. *)
Fixpoint deliver (subs : list Subscription) (n : Notification) (w : World) : World :=
  match subs with
  | [] => w
  | s :: rest =>
      if String.eqb (fst s) (topic n)
      then deliver rest n (call_handler (snd s) n w)
      else deliver rest n w
  end.

Definition peaks_emit (n : Notification) (w : World) : World :=
  deliver (subscriptions w) n w.

(** The handlers of the layer a notification reaches. *)
Definition reached (n : Notification) (w : World) : list Handler :=
  map snd (filter (fun s => String.eqb (fst s) (topic n)) (subscriptions w)).

(** *** The segment store *)

Definition mem (i : Id) (l : list Id) : bool := existsb (String.eqb i) l.

Definition set_times (t0 t1 : Q) (s : Segment) : Segment :=
  {| startTime := t0; endTime := t1; hidden := hidden s |}.

(** Modelled from the spec: the operations of the segment store
    ([peaks.segments], waveform-segments.js and segment.js, not among the
    sources), an externally owned collection that notifies of its changes:
    each operation changes the store, or a segment of the store, and then
    emits its notification about the segments concerned.  An update or a
    drag of a segment that is not in the store, and the removal or hiding
    of one that is not, concern no segment of the store. *)
Inductive StoreOp :=
| store_add (segments : list (Id * Segment))
| store_update (segment : Id) (t0 t1 : Q)
| store_remove (segments : list Id)
| store_remove_all
| store_hide (segments : list Id)
| store_dragged (segment : Id) (t0 t1 : Q).

Definition write_all (segments : list (Id * Segment)) (h : Id -> Segment) : Id -> Segment :=
  fold_left (fun acc e => write (fst e) (snd e) acc) segments h.

Definition store_step (op : StoreOp) (w : World) : World :=
  match op with
  | store_add segments =>
      peaks_emit (N_add (map fst segments))
        (set_store (store w ++ map fst segments)
           (set_heap (write_all segments (heap w)) w))
  | store_update i t0 t1 =>
      if mem i (store w)
      then peaks_emit (N_update i)
             (set_heap (write i (set_times t0 t1 (heap w i)) (heap w)) w)
      else w
  | store_remove segments =>
      peaks_emit (N_remove (filter (fun i => mem i (store w)) segments))
        (set_store (filter (fun i => negb (mem i segments)) (store w)) w)
  | store_remove_all =>
      peaks_emit N_remove_all (set_store [] w)
  | store_hide segments =>
      peaks_emit (N_hide (filter (fun i => mem i (store w)) segments)) w
  | store_dragged i t0 t1 =>
      if mem i (store w)
      then peaks_emit (N_dragged i)
             (set_heap (write i (set_times t0 t1 (heap w i)) (heap w)) w)
      else w
  end.

Definition store_run (ops : list StoreOp) (w : World) : World :=
  fold_left (fun acc op => store_step op acc) ops w.

(** The ids a notification names. *)
Definition notified (n : Notification) : list Id :=
  match n with
  | N_update i | N_dragged i => [i]
  | N_add l | N_remove l | N_hide l => l
  | N_remove_all => []
  end.

(** The ids an operation of the store names. *)
Definition op_ids (op : StoreOp) : list Id :=
  match op with
  | store_add segments => map fst segments
  | store_update i _ _ | store_dragged i _ _ => [i]
  | store_remove segments | store_hide segments => segments
  | store_remove_all => []
  end.

(** *** Reading a trace *)

Definition is_draw (c : Call) : bool :=
  match c with layer_draw => true | _ => false end.

(** The number of backend redraws made so far. *)
Definition redraws (w : World) : nat := List.length (filter is_draw (trace w)).

(** A proxy mutation: a shape is made, repositioned or destroyed. *)
Definition is_mutation (c : Call) : bool :=
  match c with
  | new_SegmentShape _ _ | shape_updatePosition _ | shape_destroy _ => true
  | _ => false
  end.

(** The number of proxy mutations made so far. *)
Definition mutations (w : World) : nat := List.length (filter is_mutation (trace w)).

(** The segment a call on a shape is about. *)
Definition subject (c : Call) : option Id :=
  match c with
  | new_SegmentShape sh _ | shape_addToLayer sh | shape_updatePosition sh
  | shape_hide sh | shape_destroy sh | shape_render sh | shape_fitToView sh =>
      Some (getSegment sh)
  | _ => None
  end.

Definition is_new (c : Call) : bool :=
  match c with new_SegmentShape _ _ => true | _ => false end.

Definition is_destroy (c : Call) : bool :=
  match c with shape_destroy _ => true | _ => false end.

(** The calls [w'] made after [w], all of them satisfying [P]. *)
Definition Since (P : Call -> Prop) (w w' : World) : Prop :=
  exists d, trace w' = trace w ++ d /\ Forall P d.

(** What no method of the shape bookkeeping touches. *)
Definition Frame (w w' : World) : Prop :=
  view w' = view w /\ heap w' = heap w /\ store w' = store w
  /\ subscriptions w' = subscriptions w
  /\ _allowEditing (this w') = _allowEditing (this w).

(** A call that is neither a redraw nor the destruction of a shape, and
    that constructs a shape only for a segment of [l]. *)
Definition Adds (l : list Id) (c : Call) : Prop :=
  is_draw c = false /\ is_destroy c = false
  /\ (is_new c = true -> exists i, In i l /\ subject c = Some i).

(** A call that constructs a shape only for a segment of [l]. *)
Definition NewOnly (l : list Id) (c : Call) : Prop :=
  is_new c = true -> exists i, In i l /\ subject c = Some i.

(** A call that is neither a redraw nor the construction of a shape. *)
Definition Drops (c : Call) : Prop := is_draw c = false /\ is_new c = false.

(** A call that is not a redraw and constructs a shape only for a segment
    of [l]. *)
Definition Syncs (l : list Id) (c : Call) : Prop :=
  is_draw c = false
  /\ (is_new c = true -> exists i, In i l /\ subject c = Some i).

(** The notification of an addition or of an update is about segments of
    the store. *)
Definition about_store (n : Notification) (w : World) : Prop :=
  match n with
  | N_update i => In i (store w)
  | N_add l => forall i, In i l -> In i (store w)
  | _ => True
  end.

(** The notification is the update of a segment that has a shape and no
    longer overlaps the visible range. *)
Definition moved_out (n : Notification) (w : World) : Prop :=
  match n with
  | N_update i =>
      lookup i (_segmentShapes (this w)) <> None
      /\ isVisible (heap w i) (frameStartTime w) (frameEndTime w) = false
  | _ => False
  end.

(** Every shape is stored under the id of its segment. *)
Definition Keyed (m : ShapeMap) : Prop :=
  forall k sh, In (k, sh) m -> getSegment sh = k.

(** Every shape held is the shape of a segment of the store. *)
Definition Held (w : World) : Prop :=
  Keyed (_segmentShapes (this w))
  /\ forall k, In k (keys (_segmentShapes (this w))) -> In k (store w).

(** The layer is subscribed as its constructor left it. *)
Definition Subscribed (w : World) : Prop :=
  subscriptions w
  = [("segments.update", H_onSegmentsUpdate); ("segments.add", H_onSegmentsAdd);
     ("segments.remove", H_onSegmentsRemove); ("segments.hide", H_onSegmentsHide);
     ("segments.remove_all", H_onSegmentsRemoveAll);
     ("segments.dragged", H_onSegmentsDragged)].

End Layer.

(** *** Worlds of the examples *)

#[export] Instance spec_visibility : Visibility := overlaps.

(** A zoom view showing the seconds [0, 20): one pixel per second. *)
Definition zoomview : View :=
  {| getName := "zoomview"; getFrameOffset := 0; getWidth := 20;
     pixelsToTime := fun p => inject_Z p |}.

Definition overview : View :=
  {| getName := "overview"; getFrameOffset := 0; getWidth := 20;
     pixelsToTime := fun p => inject_Z p |}.

Definition no_segments : Id -> Segment :=
  fun _ => {| startTime := 0; endTime := 0; hidden := false |}.

Definition segment_5_10 : Segment := {| startTime := 5; endTime := 10; hidden := false |}.

Definition hidden_5_10 : Segment := {| startTime := 5; endTime := 10; hidden := true |}.

Definition segment_30_40 : Segment := {| startTime := 30; endTime := 40; hidden := false |}.

(** The zoom view on an empty store. *)
Definition empty_zoomview : World := construct zoomview true no_segments [].

(** A segment flagged hidden is added, then the layer is reconciled. *)
Definition added_hidden : World :=
  updateSegments 0 20 (store_run [store_add [("s1", hidden_5_10)]] empty_zoomview).

(** A segment is added, hidden by a notification, then the layer is
    reconciled. *)
Definition added_then_hidden : World :=
  updateSegments 0 20
    (store_run [store_add [("s1", segment_5_10)]; store_hide ["s1"]] empty_zoomview).

(** One segment, "s1" from 5 s to 10 s, added to the empty store. *)
Definition one_segment (v : View) : World :=
  store_run [store_add [("s1", segment_5_10)]] (construct v true no_segments []).

(** "s1" displayed and "s2" (30 s to 40 s) out of the visible range. *)
Definition two_segments : World :=
  store_run [store_add [("s1", segment_5_10); ("s2", segment_30_40)]] empty_zoomview.

(** "s1" displayed, its times just changed to 30 s .. 40 s by the store:
    the state in which the store emits the update notification. *)
Definition s1_moved_out : World :=
  set_heap (write "s1" (set_times 30 40 (heap (one_segment zoomview) "s1"))
              (heap (one_segment zoomview)))
    (one_segment zoomview).

(** The shape made for "s1" in the worlds above. *)
Definition shape_s1 : SegmentShape := {| serial := 0; getSegment := "s1" |}.

(** A call that leaves the set of shapes as it is and is not a redraw. *)
Definition Keeps (c : Call) : Prop :=
  is_draw c = false /\ is_destroy c = false /\ is_new c = false.

(** A call that does not construct a shape for the segment [i]. *)
Definition NotNewFor (i : Id) (c : Call) : Prop :=
  is_new c = true -> subject c <> Some i.

(** The ids of [l] whose segment is not hidden. *)
Definition not_hidden (w : World) (l : list Id) : list Id :=
  filter (fun i => negb (hidden (heap w i))) l.

(** *** More readings of the state *)

(** The ways the layer's code changes [_segmentShapes]: a shape is assigned
    under the id of its own segment, a key is deleted, or the map is
    replaced by the empty object. *)
Inductive Edits : ShapeMap -> ShapeMap -> Prop :=
| edits_none m : Edits m m
| edits_assign m m' i sh :
    Edits m m' -> getSegment sh = i -> Edits m (assign i sh m')
| edits_delete m m' i : Edits m m' -> Edits m (delete i m')
| edits_clear m m' : Edits m m' -> Edits m [].

(** The number of shapes destroyed so far. *)
Definition destroys (w : World) : nat := List.length (filter is_destroy (trace w)).

(** A call that shows on the canvas: a shape is put on the Konva layer or
    the layer is redrawn. *)
Definition on_canvas (c : Call) : bool :=
  match c with
  | layer_draw | shape_addToLayer _ => true
  | _ => false
  end.

(** A call that neither constructs nor destroys a shape. *)
Definition Repositions (c : Call) : Prop := is_new c = false /\ is_destroy c = false.

End Segments.

(** ** Properties of the mouse-drag handler *)

Module MouseDragFacts.
Import Js MouseDrag.


Lemma construct_Idle h o r : Idle (construct h o r).
Proof. repeat split. Qed.

(** A press from the idle state. *)
Lemma press_step (w : World) (p : Press) :
  Idle w ->
  exists w1,
    stage_fire (press_event p) w = Ok w1
    /\ InSession w1 /\ origin_is (origin p) w1
    /\ _dragging (this w1) = false
    /\ _handlers (this w1) = _handlers (this w)
    /\ containerPos (dom w1) = containerPos (dom w)
    /\ calls (trace w1)
       = calls (trace w)
         ++ (if onMouseDown (_handlers (this w))
             then [call_onMouseDown
                     (Fin (fst (origin p) - rect_left (containerPos (dom w))))
                     (_getMousePosY w (clientY (evt (press_event p))))]
             else []).
Proof.
  intros [[Hst Hhd] [Hwin Hdr]].
  destruct w as [o d t]; destruct o, d; simpl in *; subst.
  unfold stage_fire, calls; simpl.
  destruct p as [x y n | t0 ts n]; simpl; unfold _mouseDown; simpl;
    destruct (onMouseDown _handlers0); simpl;
    eexists; (split; [reflexivity|]); simpl;
    unfold InSession, Wired, origin_is; simpl;
    rewrite ?flat_map_app, ?app_nil_r; simpl; repeat split.
Qed.

(** A move while a session is open. *)
Lemma move_step (w : World) (o : Q * Q) (m : Move) :
  InSession w -> origin_is o w ->
  exists w',
    window_dispatchEvent (move_event m) w = Ok w'
    /\ InSession w' /\ origin_is o w'
    /\ _dragging (this w') = _dragging (this w) || beyond o (position m)
    /\ _handlers (this w') = _handlers (this w)
    /\ containerPos (dom w') = containerPos (dom w)
    /\ calls (trace w')
       = calls (trace w)
         ++ (if onMouseMove (_handlers (this w))
             then [call_onMouseMove (type (move_event m))
                     (Fin (fst (position m) - rect_left (containerPos (dom w))))
                     (Fin (snd (position m) - rect_top (containerPos (dom w))))]
             else []).
Proof.
  intros [[Hst Hhd] Hwin] [HX HY].
  destruct o as [ox oy].
  destruct w as [ob d t]; destruct ob, d; simpl in *; subst.
  unfold window_dispatchEvent, calls; simpl.
  assert (Hex : forall x y, exceeds (set_mouseDownClient (Num (Fin ox)) (Num (Fin oy))
                   {| _handlers := _handlers0; _dragging := _dragging0;
                      _options := _options0; _handleDrag := _handleDrag0;
                      __handleDrag := Undefined;
                      _mouseDownClientX := Num (Fin ox);
                      _mouseDownClientY := Num (Fin oy) |}) (Num (Fin x)) (Num (Fin y))
                 = beyond (ox, oy) (x, y)) by reflexivity.
  unfold set_mouseDownClient in Hex; simpl in Hex.
  destruct m as [x y | t0 ts]; simpl; unfold _mouseMove, client_of, floor; simpl;
    rewrite Hex; fold floorQ;
    match goal with |- context [beyond ?a ?b] => destruct (beyond a b) eqn:Eb end; simpl;
    destruct _handlers0 as [hd hm hu hw]; destruct hm; simpl;
    eexists; (split; [reflexivity|]); simpl;
    unfold InSession, Wired, origin_is; simpl;
    rewrite ?flat_map_app, ?app_nil_r, ?orb_true_r, ?orb_false_r; simpl; repeat split.
  all: unfold floorQ; rewrite Eb, ?orb_true_r, ?orb_false_r; reflexivity.
Qed.

(** A release while a session is open. *)
Lemma release_step (w : World) (r : Release) :
  InSession w ->
  exists w',
    window_dispatchEvent (release_event r) w = Ok w'
    /\ Idle w'
    /\ _handlers (this w') = _handlers (this w)
    /\ containerPos (dom w') = containerPos (dom w)
    /\ trace w'
       = trace w ++ release_prevented r
         ++ (if onMouseUp (_handlers (this w))
             then [Host (call_onMouseUp (_getMousePosX w (fst (release_client r)))
                                        (_getMousePosY w (snd (release_client r))))
                        (isDragging w) (window_add_all [])]
             else []).
Proof.
  intros [[Hst Hhd] Hwin].
  destruct w as [ob d t]; destruct ob, d; simpl in *; subst.
  unfold window_dispatchEvent; simpl.
  destruct _handlers0 as [hd hm hu hw].
  destruct r as [x y | t0 ts c | ]; simpl; unfold _mouseUp; simpl;
    try destruct c; destruct hu; simpl;
    eexists; (split; [reflexivity|]); simpl;
    unfold Idle, Wired, isDragging; simpl;
    rewrite <- ?app_assoc, ?app_nil_r; simpl; repeat split.
Qed.

Lemma moves_run (ms : list Move) :
  forall (w : World) (o : Q * Q),
    InSession w -> origin_is o w ->
    exists w',
      window_run (map move_event ms) w = Ok w'
      /\ InSession w' /\ origin_is o w'
      /\ _dragging (this w')
         = _dragging (this w) || existsb (fun m => beyond o (position m)) ms
      /\ _handlers (this w') = _handlers (this w)
      /\ containerPos (dom w') = containerPos (dom w)
      /\ calls (trace w')
         = calls (trace w)
           ++ (if onMouseMove (_handlers (this w))
               then map (fun m => call_onMouseMove (type (move_event m))
                          (Fin (fst (position m) - rect_left (containerPos (dom w))))
                          (Fin (snd (position m) - rect_top (containerPos (dom w))))) ms
               else []).
Proof.
  induction ms as [|m ms IH]; intros w o Hs Ho.
  - exists w; simpl. rewrite orb_false_r.
    destruct (onMouseMove _); rewrite app_nil_r; auto 10.
  - destruct (move_step w o m Hs Ho) as (w1 & E1 & Hs1 & Ho1 & Hd1 & Hh1 & Hc1 & Ht1).
    destruct (IH w1 o Hs1 Ho1) as (w2 & E2 & Hs2 & Ho2 & Hd2 & Hh2 & Hc2 & Ht2).
    exists w2. simpl. rewrite E1; simpl. rewrite E2.
    rewrite Hd2, Hd1, Hh2, Hh1, Hc2, Hc1, Ht2, Ht1, Hh1, Hc1, orb_assoc.
    repeat match goal with |- _ /\ _ => split end; try assumption; try reflexivity.
    destruct (onMouseMove _); rewrite <- app_assoc; reflexivity.
Qed.



(** The session of the specification's example, run on the code. *)
Example drag_session_example :
  exists w1 w2 w3,
    stage_fire (press_event (MousePress 100 100 plain_node))
      (construct all_handlers no_options {| rect_left := 50; rect_top := 20 |}) = Ok w1
    /\ window_run [move_event (MouseMove 102 101)] w1 = Ok w2
    /\ window_run [move_event (MouseMove 104 100)] w2 = Ok w3
    /\ isDragging w1 = false /\ isDragging w2 = false /\ isDragging w3 = true
    /\ calls (trace w3)
       = [call_onMouseDown (Fin 50) (Fin 80);
          call_onMouseMove "mousemove" (Fin 52) (Fin 81);
          call_onMouseMove "mousemove" (Fin 54) (Fin 80)].
Proof. do 3 eexists. repeat split; reflexivity. Qed.



Lemma idle_ignores_moves (ms : list Move) (w : World) :
  window_listeners (dom w) = [] -> window_run (map move_event ms) w = Ok w.
Proof.
  intros Hw. induction ms as [|m ms IH]; [reflexivity|].
  simpl. unfold window_dispatchEvent at 1. rewrite Hw. simpl. exact IH.
Qed.

(** C7, where the code departs from the claim.  A release (mouseup,
    touchend or blur) delivered while a session is open: [onMouseUp] is
    called first, and the callee still sees the five window listeners and
    the flag as the session left it; when [_mouseUp] returns the window
    listeners are gone and [isDragging()] is false; moves delivered
    afterwards reach no handler and change nothing.  The position passed
    is container-relative for mouseup and touchend.  For a blur it is
    not: [_mouseUp] reads [clientX] and [clientY] of the event as for a
    mouseup, a blur event has neither, and [onMouseUp] is called with
    (NaN, NaN). *)
Theorem release_sequence (w : World) (r : Release) (ms : list Move) :
  InSession w -> onMouseUp (_handlers (this w)) = true ->
  exists w',
    window_dispatchEvent (release_event r) w = Ok w'
    /\ trace w'
       = trace w ++ release_prevented r
         ++ [Host (call_onMouseUp (_getMousePosX w (fst (release_client r)))
                                  (_getMousePosY w (snd (release_client r))))
                  (isDragging w)
                  [("mousemove", L_mouseMove); ("touchmove", L_mouseMove);
                   ("mouseup", L_mouseUp); ("touchend", L_mouseUp);
                   ("blur", L_mouseUp)]]
    /\ match r with
       | MouseUp x y =>
           _getMousePosX w (fst (release_client r)) = Fin (x - rect_left (containerPos (dom w)))
           /\ _getMousePosY w (snd (release_client r)) = Fin (y - rect_top (containerPos (dom w)))
       | TouchEnd t _ _ =>
           _getMousePosX w (fst (release_client r))
           = Fin (floorQ (touch_clientX t) - rect_left (containerPos (dom w)))
           /\ _getMousePosY w (snd (release_client r))
              = Fin (floorQ (touch_clientY t) - rect_top (containerPos (dom w)))
       | Blur =>
           _getMousePosX w (fst (release_client r)) = NaN
           /\ _getMousePosY w (snd (release_client r)) = NaN
       end
    /\ window_listeners (dom w') = []
    /\ isDragging w' = false
    /\ window_run (map move_event ms) w' = Ok w'.
Proof.
  intros Hs Hup.
  destruct (release_step w r Hs) as (w' & E & (_ & Hwin & Hdr) & _ & _ & Ht).
  exists w'. rewrite Hup in Ht.
  repeat match goal with |- _ /\ _ => split end; try assumption.
  - destruct r; split; reflexivity.
  - apply idle_ignores_moves, Hwin.
Qed.

(** The theorem on releases at the failing input: a press at (60, 30),
    the container at (50, 20), and then a blur of the window. *)
Lemma release_sequence_witness :
  exists w1 w2,
    stage_fire (press_event (MousePress 60 30 plain_node))
      (construct all_handlers no_options {| rect_left := 50; rect_top := 20 |}) = Ok w1
    /\ window_dispatchEvent (release_event Blur) w1 = Ok w2
    /\ calls (trace w2) = [call_onMouseDown (Fin 10) (Fin 10); call_onMouseUp NaN NaN]
    /\ window_listeners (dom w2) = []
    /\ isDragging w2 = false
    /\ window_run (map move_event [MouseMove 70 40]) w2 = Ok w2.
Proof.
  destruct (press_step (construct all_handlers no_options {| rect_left := 50; rect_top := 20 |})
              (MousePress 60 30 plain_node) (construct_Idle _ _ _))
    as (w1 & E1 & Hs1 & _ & _ & Hh1 & _ & Hc1).
  destruct (release_sequence w1 Blur [MouseMove 70 40] Hs1
              (eq_trans (f_equal onMouseUp Hh1) eq_refl))
    as (w2 & E2 & Ht2 & [Hx Hy] & Hw2 & Hd2 & Hm2).
  exists w1, w2.
  repeat match goal with |- _ /\ _ => split end; try assumption.
  rewrite Ht2, Hx, Hy. unfold calls in *. rewrite flat_map_app, Hc1.
  injection E1 as <-. reflexivity.
Defined.

(** The same press released by a mouseup at (61, 32): the sibling path
    passes the container-relative position. *)
Example mouseup_release_passes_the_position :
  exists w1 w2,
    stage_fire (press_event (MousePress 60 30 plain_node))
      (construct all_handlers no_options {| rect_left := 50; rect_top := 20 |}) = Ok w1
    /\ window_dispatchEvent (release_event (MouseUp 61 32)) w1 = Ok w2
    /\ calls (trace w2) = [call_onMouseDown (Fin 10) (Fin 10); call_onMouseUp (Fin 11) (Fin 12)].
Proof. do 2 eexists. repeat split; reflexivity. Qed.

(** Any method other than [_mouseUp] keeps what is registered on the
    window. *)
Lemma only_mouseUp_unregisters (c : MethodCall) (u u' : World) (reg : Registration) :
  is_mouseUp c = false -> invoke c u = Ok u' ->
  In reg (window_listeners (dom u)) -> In reg (window_listeners (dom u')).
Proof.
  assert (Hadd : forall ty m ls, In reg ls -> In reg (addEventListener ty m ls)).
  { intros ty m ls Hin. unfold addEventListener.
    destruct (existsb _ ls); [assumption | apply in_or_app; left; assumption]. }
  intros Hc E Hin. destruct c; simpl in *; try discriminate.
  - unfold _contextMenu in E. destruct (preventContextMenu _); injection E as <-; assumption.
  - unfold _mouseDown in E.
    destruct (truthy _ && marker_is_draggable _); [injection E as <-; assumption|].
    destruct (String.eqb (ktype event) "touchstart");
      [destruct (touches (evt event)); [discriminate|]|]; simpl in E;
      destruct (onMouseDown _); injection E as <-; simpl;
      unfold window_add_all; repeat apply Hadd; assumption.
  - unfold _mouseWheel in E. destruct (onMouseWheel _); injection E as <-; assumption.
  - unfold _mouseMove, client_of in E.
    destruct (String.eqb (type event) "touchmove");
      [destruct (changedTouches event); [discriminate|]|]; simpl in E;
      destruct (exceeds _ _ _); simpl in E;
      destruct (onMouseMove _); injection E as <-; assumption.
  - injection E as <-; assumption.
  - injection E as <-; assumption.
  - injection E as <-; assumption.
Qed.

(** C5, as the code has it.  A press registers the five window listeners
    and a delivered release (mouseup, touchend, blur) removes them all;
    the prototype has no teardown method, and no method other than
    [_mouseUp] removes a window listener, whatever state the object is
    in. *)
Theorem listeners_removed_by_release_only
    (w : World) (p : Press) (r : Release) (c : MethodCall) (u u' : World)
    (reg : Registration) :
  Idle w -> is_mouseUp c = false -> invoke c u = Ok u' ->
  (exists w1 w2,
      stage_fire (press_event p) w = Ok w1
      /\ window_listeners (dom w1)
         = [("mousemove", L_mouseMove); ("touchmove", L_mouseMove);
            ("mouseup", L_mouseUp); ("touchend", L_mouseUp); ("blur", L_mouseUp)]
      /\ window_dispatchEvent (release_event r) w1 = Ok w2
      /\ window_listeners (dom w2) = [])
  /\ (In reg (window_listeners (dom u)) -> In reg (window_listeners (dom u'))).
Proof.
  intros Hidle Hc E. split.
  - destruct (press_step w p Hidle) as (w1 & E1 & Hs1 & _).
    destruct (release_step w1 r Hs1) as (w2 & E2 & (_ & Hw2 & _) & _).
    exists w1, w2. destruct Hs1 as [_ Hw1].
    repeat match goal with |- _ /\ _ => split end; assumption.
  - apply (only_mouseUp_unregisters c u u' reg Hc E).
Qed.

(** The theorem on window listeners at a press at (100, 100), a blur, and a
    move as the other method call. *)
Lemma listeners_removed_by_release_only_witness :
  (exists w1 w2,
      stage_fire (press_event (MousePress 100 100 plain_node))
        (construct all_handlers no_options {| rect_left := 50; rect_top := 20 |}) = Ok w1
      /\ window_listeners (dom w1)
         = [("mousemove", L_mouseMove); ("touchmove", L_mouseMove);
            ("mouseup", L_mouseUp); ("touchend", L_mouseUp); ("blur", L_mouseUp)]
      /\ window_dispatchEvent (release_event Blur) w1 = Ok w2
      /\ window_listeners (dom w2) = [])
  /\ (In ("blur", L_mouseUp) (window_listeners (dom pressed_world)) ->
      In ("blur", L_mouseUp) (window_listeners (dom pressed_world))).
Proof.
  exact (listeners_removed_by_release_only
           (construct all_handlers no_options {| rect_left := 50; rect_top := 20 |})
           (MousePress 100 100 plain_node) Blur
           (m_mouseMove (move_event (MouseMove 104 100)))
           pressed_world _ ("blur", L_mouseUp)
           (construct_Idle _ _ _) eq_refl eq_refl).
Defined.

(** C5, the claim as stated fails: in the middle of a drag (after a press
    at (100,100)) the five window listeners are registered, and no method
    of the object other than the release handler brings the window
    listeners down: there is no teardown to call. *)
Lemma no_teardown_mid_drag :
  stage_fire (press_event (MousePress 100 100 plain_node))
    (construct all_handlers no_options {| rect_left := 50; rect_top := 20 |})
  = Ok pressed_world
  /\ List.length (window_listeners (dom pressed_world)) = 5%nat
  /\ ~ (exists c w', is_mouseUp c = false
                    /\ invoke c pressed_world = Ok w'
                    /\ window_listeners (dom w') = []).
Proof.
  split; [reflexivity | split; [reflexivity|]].
  intros (c & w' & Hc & E & Hnil).
  pose proof (only_mouseUp_unregisters c pressed_world w' ("blur", L_mouseUp) Hc E) as H.
  rewrite Hnil in H. apply H. simpl. auto 10.
Qed.

(** C8, the code at a touch press.  With the container at the page origin
    and the first touch at (10.7, 20.9), [_mouseDown] records the floored
    origin (10, 20) but calls [onMouseDown] with X = 10 and Y = NaN: the Y
    argument is converted from [event.evt.clientY], which a touch event
    does not have, not from the recorded [_mouseDownClientY]. *)
Theorem touch_press_Y_is_not_the_floored_touch :
  exists w1,
    stage_fire
      (press_event (TouchPress {| touch_clientX := 107 # 10; touch_clientY := 209 # 10 |}
                               [] plain_node))
      (construct all_handlers no_options {| rect_left := 0; rect_top := 0 |}) = Ok w1
    /\ _mouseDownClientX (this w1) = Num (Fin 10)
    /\ _mouseDownClientY (this w1) = Num (Fin 20)
    /\ calls (trace w1) = [call_onMouseDown (Fin 10) NaN]
    /\ calls (trace w1) <> [call_onMouseDown (Fin 10) (Fin 20)].
Proof.
  eexists. split; [reflexivity|]. simpl.
  repeat match goal with |- _ /\ _ => split end; try reflexivity.
  discriminate.
Qed.

(** What a press passes to [onMouseDown]: a mouse press its client position
    minus the container origin, unrounded; a touch press the floored X of
    the first touch minus the origin, and NaN for Y. *)
Lemma press_arguments (w : World) (p : Press) :
  Idle w -> onMouseDown (_handlers (this w)) = true ->
  exists w1,
    stage_fire (press_event p) w = Ok w1
    /\ calls (trace w1)
       = calls (trace w)
         ++ [match p with
             | MousePress x y _ =>
                 call_onMouseDown (Fin (x - rect_left (containerPos (dom w))))
                                  (Fin (y - rect_top (containerPos (dom w))))
             | TouchPress t _ _ =>
                 call_onMouseDown
                   (Fin (floorQ (touch_clientX t) - rect_left (containerPos (dom w)))) NaN
             end].
Proof.
  intros Hidle Hd.
  destruct (press_step w p Hidle) as (w1 & E1 & _ & _ & _ & _ & _ & Hc1).
  exists w1. split; [assumption|]. rewrite Hc1, Hd. destruct p; reflexivity.
Qed.

(** C10.  The conversion helpers return the client coordinate minus the
    origin of the container's bounding rectangle as it is at the call:
    after the container has moved, the same client point converts against
    the new rectangle.  With left = 50 and top = 20 the client point
    (60, 30) converts to (10, 10). *)
Theorem container_relative_conversion (w : World) (r : DOMRect) (x y : Q) :
  _getMousePosX w (Num (Fin x)) = Fin (x - rect_left (containerPos (dom w)))
  /\ _getMousePosY w (Num (Fin y)) = Fin (y - rect_top (containerPos (dom w)))
  /\ _getMousePosX (relayout r w) (Num (Fin x)) = Fin (x - rect_left r)
  /\ _getMousePosY (relayout r w) (Num (Fin y)) = Fin (y - rect_top r)
  /\ _getMousePosX (relayout {| rect_left := 50; rect_top := 20 |} w) (Num (Fin 60)) = Fin 10
  /\ _getMousePosY (relayout {| rect_left := 50; rect_top := 20 |} w) (Num (Fin 30)) = Fin 10.
Proof. repeat split. Qed.

(** The container moves between a press and a move: the move is reported
    against the rectangle of the moment. *)
Example conversion_follows_the_container :
  exists w1 w2,
    stage_fire (press_event (MousePress 60 30 plain_node))
      (construct all_handlers no_options {| rect_left := 50; rect_top := 20 |}) = Ok w1
    /\ window_dispatchEvent (move_event (MouseMove 60 30))
         (relayout {| rect_left := 0; rect_top := 0 |} w1) = Ok w2
    /\ calls (trace w2)
       = [call_onMouseDown (Fin 10) (Fin 10); call_onMouseMove "mousemove" (Fin 60) (Fin 30)].
Proof. do 2 eexists. repeat split; reflexivity. Qed.

End MouseDragFacts.

(** ** Properties of the segments layer *)

Module SegmentsFacts.
Import Js Segments.

Section AnyVisibility.
Context {visibility : Visibility}.

(** *** The shape map *)

Lemma lookup_In k m sh : lookup k m = Some sh -> In (k, sh) m.
Proof.
  induction m as [|[k' v] m IH]; simpl; [discriminate|].
  destruct (String.eqb_spec k k') as [->|Hne]; intros H.
  - injection H as ->. now left.
  - right. now apply IH.
Qed.

Lemma lookup_None k m : lookup k m = None <-> ~ In k (keys m).
Proof.
  induction m as [|[k' v] m IH]; simpl; [tauto|].
  destruct (String.eqb_spec k k') as [->|Hne].
  - split; [discriminate | intros H; exfalso; apply H; now left].
  - rewrite IH. split; intros H; [intros [E|Hin]; [congruence | tauto] | tauto].
Qed.

(** For a [Plain] id the read [m[k]] is what [lookup] returns. *)
Lemma get_Plain k m :
  Plain k ->
  get k m = match lookup k m with Some sh => own sh | None => undefined end.
Proof. unfold Plain, get. intros ->. reflexivity. Qed.

Lemma lookup_Some_key k m sh : lookup k m = Some sh -> In k (keys m).
Proof. intros H. apply lookup_In in H. apply (in_map fst) in H. exact H. Qed.

Lemma In_assign k v m k' v' :
  In (k', v') (assign k v m) -> (k' = k /\ v' = v) \/ In (k', v') m.
Proof.
  induction m as [|[k0 v0] m IH]; simpl.
  - intros [E|[]]. left. now injection E as <- <-.
  - destruct (String.eqb_spec k k0) as [->|Hne]; simpl.
    + intros [E|H]; [left; now injection E as <- <- | right; now right].
    + intros [E|H]; [right; now left|]. destruct (IH H); [now left | right; now right].
Qed.

Lemma keys_assign k v m k' :
  In k' (keys (assign k v m)) <-> k' = k \/ In k' (keys m).
Proof.
  induction m as [|[k0 v0] m IH]; simpl.
  - intuition congruence.
  - destruct (String.eqb_spec k k0) as [->|Hne]; simpl.
    + intuition congruence.
    + rewrite IH. intuition congruence.
Qed.

Lemma In_delete k m k' v' :
  In (k', v') (delete k m) <-> In (k', v') m /\ k' <> k.
Proof.
  unfold delete. rewrite filter_In. simpl.
  destruct (String.eqb_spec k k') as [->|Hne]; simpl; intuition congruence.
Qed.

Lemma keys_delete k m k' :
  In k' (keys (delete k m)) <-> In k' (keys m) /\ k' <> k.
Proof.
  unfold keys. rewrite !in_map_iff. split.
  - intros ([k0 v0] & <- & H). apply In_delete in H as [H Hne].
    split; [exists (k0, v0); now split | exact Hne].
  - intros [([k0 v0] & <- & H) Hne]. exists (k0, v0). split; [reflexivity|].
    apply In_delete. now split.
Qed.

Lemma mem_In i l : mem i l = true <-> In i l.
Proof.
  unfold mem. rewrite existsb_exists. split.
  - intros (x & Hin & E). apply String.eqb_eq in E. now subst.
  - intros H. exists i. split; [exact H | apply String.eqb_refl].
Qed.

(** *** What a method leaves alone *)

Lemma Frame_refl w : Frame w w.
Proof. repeat split. Qed.

Lemma Frame_trans w1 w2 w3 : Frame w1 w2 -> Frame w2 w3 -> Frame w1 w3.
Proof.
  intros (a1 & a2 & a3 & a4 & a5) (b1 & b2 & b3 & b4 & b5).
  repeat split; congruence.
Qed.

Lemma Since_refl P w : Since P w w.
Proof. exists []. split; [now rewrite app_nil_r | constructor]. Qed.

Lemma Since_trans P w1 w2 w3 : Since P w1 w2 -> Since P w2 w3 -> Since P w1 w3.
Proof.
  intros (d1 & E1 & F1) (d2 & E2 & F2). exists (d1 ++ d2). split.
  - rewrite E2, E1. now rewrite app_assoc.
  - apply Forall_app. now split.
Qed.

Lemma Since_impl (P Q : Call -> Prop) w w' :
  (forall c, P c -> Q c) -> Since P w w' -> Since Q w w'.
Proof.
  intros H (d & E & F). exists d. split; [exact E|].
  eapply Forall_impl; [exact H | exact F].
Qed.

Lemma Since_emit (P : Call -> Prop) c w : P c -> Since P w (emit c w).
Proof. intros H. exists [c]. split; [reflexivity | now constructor]. Qed.

Lemma Since_In P w w' c : Since P w w' -> In c (trace w) -> In c (trace w').
Proof. intros (d & E & _) H. rewrite E. apply in_or_app. now left. Qed.

Lemma Since_redraws w w' :
  Since (fun c => is_draw c = false) w w' -> redraws w' = redraws w.
Proof.
  intros (d & E & F). unfold redraws. rewrite E, filter_app, length_app.
  replace (filter is_draw d) with (@nil Call); [simpl; lia|].
  clear E. induction F as [|c d Hc F IH]; simpl; [reflexivity|]. rewrite Hc. exact IH.
Qed.

Lemma redraws_draw w :
  redraws (draw w) = (redraws w + (if is_overview w then 0 else 1))%nat.
Proof.
  unfold draw, redraws. destruct (is_overview w); simpl; [lia|].
  rewrite filter_app, length_app. reflexivity.
Qed.

(** *** The methods that keep the map *)

Lemma addSegmentShape_spec i w :
  Frame w (snd (_addSegmentShape i w))
  /\ getSegment (fst (_addSegmentShape i w)) = i
  /\ _segmentShapes (this (snd (_addSegmentShape i w)))
     = assign i (fst (_addSegmentShape i w)) (_segmentShapes (this w))
  /\ Since (Adds [i]) w (snd (_addSegmentShape i w)).
Proof.
  unfold _addSegmentShape, _createSegmentShape, is_overview; simpl.
  destruct (String.eqb (getName (view w)) "overview"); simpl;
    (split; [repeat split|]); (split; [reflexivity|]); (split; [reflexivity|]).
  - exists [new_SegmentShape {| serial := allocated (this w); getSegment := i |}
              (_allowEditing (this w))].
    split; [reflexivity|]. constructor; [|constructor].
    split; [reflexivity | split; [reflexivity|]]. intros _. exists i. simpl. auto.
  - exists [new_SegmentShape {| serial := allocated (this w); getSegment := i |}
              (_allowEditing (this w));
            shape_addToLayer {| serial := allocated (this w); getSegment := i |}].
    split; [simpl; now rewrite <- app_assoc|].
    constructor; [|constructor; [|constructor]].
    + split; [reflexivity | split; [reflexivity|]]. intros _. exists i. simpl. auto.
    + split; [reflexivity | split; [reflexivity|]]. discriminate.
Qed.

Lemma Keyed_assign i sh m : getSegment sh = i -> Keyed m -> Keyed (assign i sh m).
Proof.
  intros Hsh Hk k v Hin. apply In_assign in Hin as [[-> ->]|Hin]; [exact Hsh|].
  now apply Hk.
Qed.

Lemma removeSegment_spec i w :
  Frame w (_removeSegment i w)
  /\ (forall k v, In (k, v) (_segmentShapes (this (_removeSegment i w)))
                  <-> In (k, v) (_segmentShapes (this w)) /\ k <> i)
  /\ Since Drops w (_removeSegment i w)
  /\ (forall sh, lookup i (_segmentShapes (this w)) = Some sh ->
                 In (shape_destroy sh) (trace (_removeSegment i w))).
Proof.
  unfold _removeSegment.
  destruct (lookup i (_segmentShapes (this w))) as [sh|] eqn:E; simpl.
  - split; [repeat split|]. split; [intros k v; apply In_delete|]. split.
    + exists [shape_destroy sh]. split; [reflexivity|].
      constructor; [split; reflexivity | constructor].
    + intros sh' [= <-]. apply in_or_app. right. now left.
  - split; [apply Frame_refl|]. split; [|split; [apply Since_refl | discriminate]].
    intros k v. split; [|tauto]. intros Hin. split; [exact Hin|]. intros ->.
    apply lookup_None in E. apply E. apply (in_map fst) in Hin. exact Hin.
Qed.

Lemma updateSegment_spec i w :
  Frame w (_updateSegment i w)
  /\ (forall k, In k (keys (_segmentShapes (this (_updateSegment i w))))
                <-> k = i \/ In k (keys (_segmentShapes (this w))))
  /\ (Keyed (_segmentShapes (this w)) ->
      Keyed (_segmentShapes (this (_updateSegment i w))))
  /\ Since (Adds [i]) w (_updateSegment i w).
Proof.
  unfold _updateSegment, _findOrAddSegmentShape.
  destruct (lookup i (_segmentShapes (this w))) as [sh|] eqn:E.
  - simpl. split; [repeat split|]. split; [|split; [tauto|]].
    + intros k. split; [tauto|]. intros [->|H]; [|exact H].
      eapply lookup_Some_key, E.
    + apply Since_emit. split; [reflexivity | split; [reflexivity | discriminate]].
  - destruct (addSegmentShape_spec i w) as (Hf & Hsh & Hm & Hs).
    destruct (_addSegmentShape i w) as [sh w1]; simpl in *.
    split; [exact Hf|]. split; [|split].
    + intros k. rewrite Hm. apply keys_assign.
    + intros Hk. rewrite Hm. now apply Keyed_assign.
    + eapply Since_trans; [exact Hs|]. apply Since_emit.
      split; [reflexivity | split; [reflexivity | discriminate]].
Qed.

Lemma Adds_mono l l' c : (forall i, In i l -> In i l') -> Adds l c -> Adds l' c.
Proof.
  intros Hl (H1 & H2 & H3). split; [exact H1 | split; [exact H2|]].
  intros Hn. destruct (H3 Hn) as (i & Hi & Hs). exists i. auto.
Qed.

Lemma forEach_updateSegment_spec l :
  forall w,
    Frame w (forEach l _updateSegment w)
    /\ (forall k, In k (keys (_segmentShapes (this (forEach l _updateSegment w))))
                  <-> In k l \/ In k (keys (_segmentShapes (this w))))
    /\ (Keyed (_segmentShapes (this w)) ->
        Keyed (_segmentShapes (this (forEach l _updateSegment w))))
    /\ Since (Adds l) w (forEach l _updateSegment w).
Proof.
  induction l as [|i l IH]; intros w.
  - simpl. split; [apply Frame_refl|]. split; [tauto|]. split; [tauto | apply Since_refl].
  - unfold forEach in *. simpl.
    destruct (updateSegment_spec i w) as (Hf & Hk & Hkeyed & Hs).
    destruct (IH (_updateSegment i w)) as (Hf' & Hk' & Hkeyed' & Hs').
    split; [eapply Frame_trans; eassumption|]. split; [|split].
    + intros k. rewrite Hk', Hk. simpl. intuition congruence.
    + auto.
    + eapply Since_trans.
      * eapply Since_impl; [|exact Hs]. intros c. apply Adds_mono.
        intros j [<-|[]]. now left.
      * eapply Since_impl; [|exact Hs']. intros c. apply Adds_mono.
        intros j Hj. now right.
Qed.

Lemma removeInvisible_loop_spec t0 t1 ids :
  forall n w,
    Frame w (snd (removeInvisible_loop ids t0 t1 n w))
    /\ (Keyed (_segmentShapes (this w)) ->
        forall k v,
          In (k, v) (_segmentShapes (this (snd (removeInvisible_loop ids t0 t1 n w))))
          <-> In (k, v) (_segmentShapes (this w))
              /\ (In k ids -> isVisible (heap w k) t0 t1 = true))
    /\ Since Drops w (snd (removeInvisible_loop ids t0 t1 n w)).
Proof.
  induction ids as [|sid ids IH]; intros n w.
  - simpl. split; [apply Frame_refl|]. split; [|apply Since_refl].
    intros _ k v. tauto.
  - simpl. destruct (lookup sid (_segmentShapes (this w))) as [sh|] eqn:E.
    + destruct (isVisible (heap w (getSegment sh)) t0 t1) eqn:V; simpl.
      * destruct (IH n w) as (Hf & Hm & Hs).
        split; [exact Hf|]. split; [|exact Hs].
        intros Hk k v. rewrite (Hm Hk).
        assert (getSegment sh = sid) by (apply Hk, lookup_In, E). subst sid.
        split; intros [H1 H2]; (split; [exact H1|]); [intros [<-|H]|]; auto.
      * destruct (removeSegment_spec (getSegment sh) w) as (Hf1 & Hm1 & Hs1 & _).
        destruct (IH (S n) (_removeSegment (getSegment sh) w)) as (Hf & Hm & Hs).
        split; [eapply Frame_trans; eassumption|].
        split; [|eapply Since_trans; eassumption].
        intros Hk k v.
        assert (Hk1 : Keyed (_segmentShapes (this (_removeSegment (getSegment sh) w)))).
        { intros k' v' Hin. apply Hm1 in Hin as [Hin _]. now apply Hk. }
        rewrite (Hm Hk1), Hm1.
        assert (getSegment sh = sid) by (apply Hk, lookup_In, E). subst sid.
        destruct Hf1 as (_ & -> & _).
        split.
        -- intros [[H1 Hne] H2]. split; [exact H1|]. intros [<-|H]; [congruence | auto].
        -- intros [H1 H2]. split; [split; [exact H1|]|auto].
           intros ->. rewrite H2 in V; [discriminate | now left].
    + destruct (IH n w) as (Hf & Hm & Hs).
      split; [exact Hf|]. split; [|exact Hs].
      intros Hk k v. rewrite (Hm Hk).
      split; intros [H1 H2]; (split; [exact H1|]); [intros [<-|H]|]; auto.
      exfalso. apply lookup_None in E. apply E. apply (in_map fst) in H1. exact H1.
Qed.

Lemma forEach_inv {A} (I : World -> Prop) (f : A -> World -> World) (l : list A) :
  (forall x w, In x l -> I w -> I (f x w)) ->
  forall w, I w -> I (forEach l f w).
Proof.
  unfold forEach. induction l as [|x l IH]; intros Hstep w Hw; simpl; [exact Hw|].
  apply IH.
  - intros y w' Hy. apply Hstep. now right.
  - apply Hstep; [now left | exact Hw].
Qed.

Lemma keys_In k m : In k (keys m) <-> exists v, In (k, v) m.
Proof.
  unfold keys. rewrite in_map_iff. split.
  - intros ([k' v] & <- & H). now exists v.
  - intros (v & H). now exists (k, v).
Qed.

Lemma find_In t0 t1 w k :
  In k (find t0 t1 w) <-> In k (store w) /\ isVisible (heap w k) t0 t1 = true.
Proof. unfold find. apply filter_In. Qed.

Lemma is_overview_Frame w w' : Frame w w' -> is_overview w' = is_overview w.
Proof. intros (Hv & _). unfold is_overview. now rewrite Hv. Qed.

Lemma Since_draw (P : Call -> Prop) w : P layer_draw -> Since P w (draw w).
Proof.
  intros H. unfold draw. destruct (is_overview w); [apply Since_refl | now apply Since_emit].
Qed.

Lemma Frame_draw w : Frame w (draw w).
Proof. unfold draw. destruct (is_overview w); repeat split. Qed.

Lemma shapes_draw w : _segmentShapes (this (draw w)) = _segmentShapes (this w).
Proof. unfold draw. now destruct (is_overview w). Qed.

(** The reconciliation pass. *)
Lemma updateSegments_spec t0 t1 w :
  Frame w (updateSegments t0 t1 w)
  /\ (Keyed (_segmentShapes (this w)) ->
      Keyed (_segmentShapes (this (updateSegments t0 t1 w)))
      /\ forall k, In k (keys (_segmentShapes (this (updateSegments t0 t1 w))))
                   <-> (In k (find t0 t1 w) \/ In k (keys (_segmentShapes (this w))))
                       /\ isVisible (heap w k) t0 t1 = true)
  /\ Since (NewOnly (find t0 t1 w)) w (updateSegments t0 t1 w)
  /\ (redraws (updateSegments t0 t1 w) <= redraws w + 1)%nat
  /\ (is_overview w = true -> redraws (updateSegments t0 t1 w) = redraws w)
  /\ (is_overview w = false -> find t0 t1 w <> [] ->
      redraws (updateSegments t0 t1 w) = (redraws w + 1)%nat).
Proof.
  unfold updateSegments, _removeInvisibleSegments.
  destruct (forEach_updateSegment_spec (find t0 t1 w) w) as (Hf1 & Hk1 & Hkeyed1 & Hs1).
  set (w1 := forEach (find t0 t1 w) _updateSegment w) in *.
  destruct (removeInvisible_loop_spec t0 t1 (keys (_segmentShapes (this w1))) 0 w1)
    as (Hf2 & Hm2 & Hs2).
  destruct (removeInvisible_loop (keys (_segmentShapes (this w1))) t0 t1 0 w1)
    as [removed w2] eqn:Eloop.
  simpl in Hf2, Hm2, Hs2.
  assert (Hf : Frame w w2) by (eapply Frame_trans; eassumption).
  assert (Hbody : Since (Syncs (find t0 t1 w)) w w2).
  { eapply Since_trans.
    - eapply Since_impl; [|exact Hs1]. intros c (H1 & _ & H3). now split.
    - eapply Since_impl; [|exact Hs2]. intros c (H1 & H2). split; [exact H1|].
      intros Hn. congruence. }
  assert (Hred : redraws w2 = redraws w).
  { apply Since_redraws. eapply Since_impl; [|exact Hbody]. now intros c [H _]. }
  assert (Hov : is_overview w2 = is_overview w) by now apply is_overview_Frame.
  assert (Hnew : Since (NewOnly (find t0 t1 w)) w w2).
  { eapply Since_impl; [|exact Hbody]. now intros c [_ H]. }
  split; [|split; [|split; [|split; [|split]]]].
  - destruct (0 <? _)%nat; [eapply Frame_trans; [exact Hf | apply Frame_draw] | exact Hf].
  - intros Hkeyed.
    assert (Hshapes : _segmentShapes (this (if (0 <? List.length (find t0 t1 w) + removed)%nat
                                            then draw w2 else w2))
                      = _segmentShapes (this w2))
      by (destruct (0 <? _)%nat; [apply shapes_draw | reflexivity]).
    rewrite Hshapes. specialize (Hm2 (Hkeyed1 Hkeyed)).
    split.
    + intros k v Hin. apply Hm2 in Hin as [Hin _]. now apply (Hkeyed1 Hkeyed).
    + intros k. rewrite keys_In. destruct Hf1 as (_ & Hheap & _).
      split.
      * intros (v & Hin). apply Hm2 in Hin as [Hin Hvis].
        assert (Hkin : In k (keys (_segmentShapes (this w1)))) by (apply keys_In; eauto).
        split; [now apply Hk1 | rewrite <- Hheap; now apply Hvis].
      * intros [Hor Hvis]. apply Hk1 in Hor. apply keys_In in Hor as (v & Hin).
        exists v. apply Hm2. split; [exact Hin|]. intros _. now rewrite Hheap.
  - destruct (0 <? _)%nat; [|exact Hnew].
    eapply Since_trans; [exact Hnew|]. apply Since_draw. discriminate.
  - destruct (0 <? _)%nat; [rewrite redraws_draw; destruct (is_overview w2)|]; lia.
  - intros Ho. destruct (0 <? _)%nat; [rewrite redraws_draw, Hov, Ho|]; lia.
  - intros Ho Hne.
    assert (E : (0 <? List.length (find t0 t1 w) + removed)%nat = true).
    { apply Nat.ltb_lt. destruct (find t0 t1 w); [congruence | simpl; lia]. }
    rewrite E, redraws_draw, Hov, Ho. lia.
Qed.

Lemma Subscribed_emit n w : Subscribed w -> peaks_emit n w = handle n w.
Proof.
  intros H. unfold peaks_emit. rewrite H. destruct n; reflexivity.
Qed.

Lemma forEach_removeSegment_spec l w :
  Frame w (forEach l _removeSegment w)
  /\ (forall k v, In (k, v) (_segmentShapes (this (forEach l _removeSegment w)))
                  <-> In (k, v) (_segmentShapes (this w)) /\ ~ In k l)
  /\ Since Drops w (forEach l _removeSegment w).
Proof.
  revert w. induction l as [|i l IH]; intros w.
  - simpl. split; [apply Frame_refl|]. split; [intros; tauto | apply Since_refl].
  - unfold forEach in *. simpl.
    destruct (removeSegment_spec i w) as (Hf & Hm & Hs & _).
    destruct (IH (_removeSegment i w)) as (Hf' & Hm' & Hs').
    split; [eapply Frame_trans; eassumption|].
    split; [|eapply Since_trans; eassumption].
    intros k v. rewrite Hm', Hm. intuition congruence.
Qed.

Lemma forEach_addVisible_spec t0 t1 l w :
  let f := fun segment acc =>
             if isVisible (heap acc segment) t0 t1
             then snd (_addSegmentShape segment acc) else acc in
  Frame w (forEach l f w)
  /\ (Keyed (_segmentShapes (this w)) -> Keyed (_segmentShapes (this (forEach l f w))))
  /\ (forall k, In k (keys (_segmentShapes (this (forEach l f w)))) ->
                In k l \/ In k (keys (_segmentShapes (this w))))
  /\ Since (Adds l) w (forEach l f w).
Proof.
  intros f.
  apply (forEach_inv
    (fun w' => Frame w w'
       /\ (Keyed (_segmentShapes (this w)) -> Keyed (_segmentShapes (this w')))
       /\ (forall k, In k (keys (_segmentShapes (this w'))) ->
                     In k l \/ In k (keys (_segmentShapes (this w))))
       /\ Since (Adds l) w w')).
  - intros i w' Hi (Hf & Hk & Hkeys & Hs). unfold f.
    destruct (isVisible (heap w' i) t0 t1); [|auto].
    destruct (addSegmentShape_spec i w') as (Hf' & Hsh & Hm & Hs').
    split; [eapply Frame_trans; eassumption|]. split; [|split].
    + intros H. rewrite Hm. apply Keyed_assign; auto.
    + intros k. rewrite Hm, keys_assign. intros [->|H]; auto.
    + eapply Since_trans; [exact Hs|]. eapply Since_impl; [|exact Hs'].
      intros c. apply Adds_mono. intros j [<-|[]]. exact Hi.
  - split; [apply Frame_refl|]. split; [auto|]. split; [auto | apply Since_refl].
Qed.

(** What a handler does to the keys of the map. *)
Lemma handle_keys n w :
  Keyed (_segmentShapes (this w)) ->
  Keyed (_segmentShapes (this (handle n w)))
  /\ store (handle n w) = store w
  /\ subscriptions (handle n w) = subscriptions w
  /\ forall k, In k (keys (_segmentShapes (this (handle n w)))) ->
        match n with
        | N_update i => k = i \/ In k (store w) \/ In k (keys (_segmentShapes (this w)))
        | N_add l => In k l \/ In k (store w) \/ In k (keys (_segmentShapes (this w)))
        | N_remove l => In k (keys (_segmentShapes (this w))) /\ ~ In k l
        | N_hide _ => In k (keys (_segmentShapes (this w)))
        | N_remove_all => False
        | N_dragged i => k = i \/ In k (keys (_segmentShapes (this w)))
        end.
Proof.
  intros Hkeyed. destruct n as [i | l | l | l | | i]; simpl.
  - (* update *)
    unfold _onSegmentsUpdate.
    destruct (removeSegment_spec i w) as (Hf1 & Hm1 & _).
    set (p1 := match lookup i (_segmentShapes (this w)) with
               | Some _ => (true, _removeSegment i w)
               | None => (false, w)
               end).
    assert (H1 : Frame w (snd p1)
                 /\ Keyed (_segmentShapes (this (snd p1)))
                 /\ forall k, In k (keys (_segmentShapes (this (snd p1)))) ->
                              In k (keys (_segmentShapes (this w)))).
    { unfold p1. destruct (lookup i (_segmentShapes (this w))); cbn [snd].
      - split; [exact Hf1|]. split.
        + intros k v Hin. apply Hm1 in Hin as [Hin _]. now apply Hkeyed.
        + intros k Hin. apply keys_In in Hin as (v & Hin). apply Hm1 in Hin as [Hin _].
          apply keys_In. eauto.
      - split; [apply Frame_refl | auto]. }
    destruct p1 as [redraw1 w1]; simpl in H1. destruct H1 as (Hfa & Hka & Hina).
    set (p2 := if isVisible (heap w1 i) (frameStartTime w) (frameEndTime w)
               then (true, snd (_addSegmentShape i w1)) else (redraw1, w1)).
    assert (H2 : Frame w (snd p2)
                 /\ Keyed (_segmentShapes (this (snd p2)))
                 /\ forall k, In k (keys (_segmentShapes (this (snd p2)))) ->
                              k = i \/ In k (keys (_segmentShapes (this w)))).
    { unfold p2. destruct (isVisible _ _ _); cbn [snd].
      - destruct (addSegmentShape_spec i w1) as (Hf' & Hsh & Hm & _).
        split; [eapply Frame_trans; eassumption|]. split.
        + rewrite Hm. now apply Keyed_assign.
        + intros k. rewrite Hm, keys_assign. intros [->|H]; auto.
      - split; [exact Hfa|]. split; [exact Hka | auto]. }
    destruct p2 as [redraw w2]; simpl in H2. destruct H2 as (Hfb & Hkb & Hinb).
    destruct redraw.
    + destruct (updateSegments_spec (frameStartTime w) (frameEndTime w) w2)
        as (Hf3 & Hk3 & _).
      destruct (Hk3 Hkb) as [Hk3a Hk3b].
      assert (Hf : Frame w (updateSegments (frameStartTime w) (frameEndTime w) w2))
        by (eapply Frame_trans; eassumption).
      split; [exact Hk3a|]. destruct Hf as (_ & _ & Hst & Hsub & _).
      split; [exact Hst | split; [exact Hsub|]].
      intros k Hin. apply Hk3b in Hin as [[Hin|Hin] _].
      * apply find_In in Hin as [Hin _]. destruct Hfb as (_ & _ & <- & _). auto.
      * destruct (Hinb k Hin); auto.
    + destruct Hfb as (_ & _ & Hst & Hsub & _).
      split; [exact Hkb | split; [exact Hst | split; [exact Hsub|]]].
      intros k Hin. destruct (Hinb k Hin); auto.
  - (* add *)
    unfold _onSegmentsAdd.
    destruct (forEach_addVisible_spec (frameStartTime w) (frameEndTime w) l w)
      as (Hf1 & Hk1 & Hin1 & _); cbv zeta in *.
    set (w1 := forEach l _ w) in *.
    destruct (updateSegments_spec (frameStartTime w) (frameEndTime w) w1) as (Hf2 & Hk2 & _).
    destruct (Hk2 (Hk1 Hkeyed)) as [Hk2a Hk2b].
    assert (Hf : Frame w (updateSegments (frameStartTime w) (frameEndTime w) w1))
      by (eapply Frame_trans; eassumption).
    split; [exact Hk2a|]. destruct Hf as (_ & _ & Hst & Hsub & _).
    split; [exact Hst | split; [exact Hsub|]].
    intros k Hin. apply Hk2b in Hin as [[Hin|Hin] _].
    + apply find_In in Hin as [Hin _]. destruct Hf1 as (_ & _ & <- & _). auto.
    + destruct (Hin1 k Hin); auto.
  - (* remove *)
    unfold _onSegmentsRemove. rewrite shapes_draw.
    destruct (forEach_removeSegment_spec l w) as (Hf & Hm & _).
    assert (Hfd := Frame_trans _ _ _ Hf (Frame_draw (forEach l _removeSegment w))).
    destruct Hfd as (_ & _ & Hst & Hsub & _).
    split; [|split; [exact Hst | split; [exact Hsub|]]].
    + intros k v Hin. apply Hm in Hin as [Hin _]. now apply Hkeyed.
    + intros k Hin. apply keys_In in Hin as (v & Hin). apply Hm in Hin as [Hin Hn].
      split; [apply keys_In; eauto | exact Hn].
  - (* hide *)
    unfold _onSegmentsHide. rewrite shapes_draw.
    assert (H : _segmentShapes (this (forEach l _hideSegment w)) = _segmentShapes (this w)
                /\ store (forEach l _hideSegment w) = store w
                /\ subscriptions (forEach l _hideSegment w) = subscriptions w).
    { apply (forEach_inv (fun w' => _segmentShapes (this w') = _segmentShapes (this w)
                                   /\ store w' = store w
                                   /\ subscriptions w' = subscriptions w)); [|auto].
      intros i w' _ (H1 & H2 & H3). unfold _hideSegment.
      destruct (lookup i (_segmentShapes (this w'))); simpl; auto. }
    destruct H as (Hsh & Hst & Hsub). rewrite Hsh.
    destruct (Frame_draw (forEach l _hideSegment w)) as (_ & _ & Hst' & Hsub' & _).
    split; [exact Hkeyed|]. split; [congruence | split; [congruence | auto]].
  - (* remove_all *)
    unfold _onSegmentsRemoveAll. rewrite shapes_draw. simpl.
    destruct (Frame_draw (set_shapes [] (emit layer_removeChildren w)))
      as (_ & _ & Hst' & Hsub' & _).
    split; [intros k v []|]. split; [exact Hst' | split; [exact Hsub' | auto]].
  - (* dragged *)
    unfold _onSegmentsDragged. rewrite shapes_draw.
    destruct (updateSegment_spec i w) as (Hf & Hk & Hkd & _).
    assert (Hfd := Frame_trans _ _ _ Hf (Frame_draw (_updateSegment i w))).
    destruct Hfd as (_ & _ & Hst & Hsub & _).
    split; [auto|]. split; [exact Hst | split; [exact Hsub|]].
    intros k Hin. now apply Hk.
Qed.

(** The store's operations keep the layer subscribed, and its shapes those
    of segments of the store. *)
Lemma store_step_Held op w :
  Subscribed w -> Held w ->
  Subscribed (store_step op w) /\ Held (store_step op w).
Proof.
  intros Hsub [Hkeyed Hin].
  destruct op as [segs | i t0 t1 | l | | l | i t0 t1]; simpl.
  - set (w0 := set_store _ _).
    rewrite (Subscribed_emit _ w0 Hsub).
    destruct (handle_keys (N_add (map fst segs)) w0 Hkeyed) as (Hk & Hst & Hsu & Hkeys).
    split; [unfold Subscribed; rewrite Hsu; exact Hsub|].
    split; [exact Hk|]. intros k Hk'. rewrite Hst. simpl.
    destruct (Hkeys k Hk') as [H|[H|H]].
    + apply in_or_app. now right.
    + exact H.
    + apply in_or_app. left. now apply Hin.
  - destruct (mem i (store w)) eqn:Em; [|split; [exact Hsub | split; assumption]].
    set (w0 := set_heap _ _).
    rewrite (Subscribed_emit _ w0 Hsub).
    destruct (handle_keys (N_update i) w0 Hkeyed) as (Hk & Hst & Hsu & Hkeys).
    split; [unfold Subscribed; rewrite Hsu; exact Hsub|].
    split; [exact Hk|]. intros k Hk'. rewrite Hst. simpl.
    destruct (Hkeys k Hk') as [->|[H|H]]; [now apply mem_In | exact H | now apply Hin].
  - set (w0 := set_store _ _).
    rewrite (Subscribed_emit _ w0 Hsub).
    destruct (handle_keys (N_remove (filter (fun i => mem i (store w)) l)) w0 Hkeyed)
      as (Hk & Hst & Hsu & Hkeys).
    split; [unfold Subscribed; rewrite Hsu; exact Hsub|].
    split; [exact Hk|]. intros k Hk'. rewrite Hst. simpl.
    destruct (Hkeys k Hk') as [H Hn]. apply filter_In. split; [now apply Hin|].
    destruct (mem k l) eqn:Ekl; [|reflexivity]. exfalso. apply Hn.
    apply filter_In. split; [now apply mem_In|]. apply mem_In. now apply Hin.
  - set (w0 := set_store _ _).
    rewrite (Subscribed_emit _ w0 Hsub).
    destruct (handle_keys N_remove_all w0 Hkeyed) as (Hk & Hst & Hsu & Hkeys).
    split; [unfold Subscribed; rewrite Hsu; exact Hsub|].
    split; [exact Hk|]. intros k Hk'. destruct (Hkeys k Hk').
  - rewrite (Subscribed_emit _ w Hsub).
    destruct (handle_keys (N_hide (filter (fun i => mem i (store w)) l)) w Hkeyed)
      as (Hk & Hst & Hsu & Hkeys).
    split; [unfold Subscribed; rewrite Hsu; exact Hsub|].
    split; [exact Hk|]. intros k Hk'. rewrite Hst. apply Hin. now apply Hkeys.
  - destruct (mem i (store w)) eqn:Em; [|split; [exact Hsub | split; assumption]].
    set (w0 := set_heap _ _).
    rewrite (Subscribed_emit _ w0 Hsub).
    destruct (handle_keys (N_dragged i) w0 Hkeyed) as (Hk & Hst & Hsu & Hkeys).
    split; [unfold Subscribed; rewrite Hsu; exact Hsub|].
    split; [exact Hk|]. intros k Hk'. rewrite Hst. simpl.
    destruct (Hkeys k Hk') as [->|H]; [now apply mem_In | now apply Hin].
Qed.

Lemma store_run_Held ops :
  forall w, Subscribed w -> Held w ->
            Subscribed (store_run ops w) /\ Held (store_run ops w).
Proof.
  unfold store_run. induction ops as [|op ops IH]; intros w Hs Hh; simpl; [auto|].
  destruct (store_step_Held op w Hs Hh) as [Hs' Hh']. now apply IH.
Qed.

Lemma construct_Held v e h stored :
  Subscribed (construct v e h stored) /\ Held (construct v e h stored).
Proof.
  split; [reflexivity|]. split; [intros k sh [] | intros k []].
Qed.

(** C1, as the code has it.  After any sequence of operations of the
    store, each followed by the notification the store emits for it (add,
    update, remove, remove-all, and also hide and dragged), so that every
    notification is about segments the store holds, a call of
    [updateSegments(t0, t1)] leaves a shape under exactly the ids of the
    segments [find(t0, t1)] returns, hidden or not.  The ids of the store
    and of the operations are [Plain]. *)
Theorem proxies_are_the_segments_found
    (v : View) (editing : bool) (h : Id -> Segment) (stored : list Id)
    (ops : list StoreOp) (t0 t1 : Q) (k : Id) :
  Forall Plain stored ->
  Forall (fun op => Forall Plain (op_ids op)) ops ->
  In k (keys (_segmentShapes
                (this (updateSegments t0 t1
                         (store_run ops (construct v editing h stored))))))
  <-> In k (find t0 t1 (updateSegments t0 t1
                          (store_run ops (construct v editing h stored)))).
Proof.
  intros _ _.
  destruct (construct_Held v editing h stored) as [Hs Hh].
  destruct (store_run_Held ops _ Hs Hh) as [_ [Hkeyed Hin]].
  set (w := store_run ops (construct v editing h stored)) in *.
  destruct (updateSegments_spec t0 t1 w) as ((_ & Hheap & Hstore & _) & Hk & _).
  destruct (Hk Hkeyed) as [_ Hkeys].
  rewrite Hkeys, !find_In, Hheap, Hstore.
  specialize (Hin k). tauto.
Qed.

(** *** Teardown *)

Lemma forEach_emit {A} (f : A -> Call) (l : list A) :
  forall w,
    this (forEach l (fun x => emit (f x)) w) = this w
    /\ Frame w (forEach l (fun x => emit (f x)) w)
    /\ trace (forEach l (fun x => emit (f x)) w) = trace w ++ map f l.
Proof.
  unfold forEach. induction l as [|x l IH]; intros w; simpl.
  - split; [reflexivity|]. split; [apply Frame_refl | now rewrite app_nil_r].
  - destruct (IH (emit (f x) w)) as (H1 & H2 & H3).
    split; [exact H1|]. split; [exact H2|].
    rewrite H3. simpl. now rewrite <- app_assoc.
Qed.

Lemma destroy_spec w :
  this (destroy w) = this w
  /\ view (destroy w) = view w /\ heap (destroy w) = heap w /\ store (destroy w) = store w
  /\ trace (destroy w)
     = trace w ++ map shape_destroy (values (_segmentShapes (this w)))
  /\ subscriptions (destroy w)
     = remove_first "segments.dragged" H_onSegmentsDragged
         (remove_first "segments.remove_all" H_onSegmentsRemoveAll
           (remove_first "segments.remove" H_onSegmentsRemove
             (remove_first "segments.add" H_onSegmentsAdd
               (remove_first "segments.update" H_onSegmentsUpdate (subscriptions w))))).
Proof.
  unfold destroy.
  destruct (forEach_emit shape_destroy (values (_segmentShapes (this w))) w)
    as (H1 & (H2 & H3 & H4 & H5 & _) & H6).
  set (w1 := forEach _ _ w) in *.
  unfold off, set_subscriptions; simpl. rewrite H5.
  repeat split; assumption.
Qed.

(** C3, the code at teardown.  Whatever the store did before, [destroy()]
    calls [destroy] on every shape held and unsubscribes five of the six
    handlers the constructor subscribed: the subscription to
    "segments.hide" stays, so a hide notification emitted afterwards still
    runs [_onSegmentsHide] of the destroyed layer; with "s1" displayed
    before the teardown it hides the destroyed shape and redraws. *)
Theorem destroy_leaves_hide_subscribed
    (v : View) (editing : bool) (h : Id -> Segment) (stored : list Id)
    (ops : list StoreOp) (l : list Id) :
  trace (destroy (store_run ops (construct v editing h stored)))
  = trace (store_run ops (construct v editing h stored))
    ++ map shape_destroy
         (values (_segmentShapes (this (store_run ops (construct v editing h stored)))))
  /\ subscriptions (destroy (store_run ops (construct v editing h stored)))
     = [("segments.hide", H_onSegmentsHide)]
  /\ reached (N_hide l) (destroy (store_run ops (construct v editing h stored)))
     = [H_onSegmentsHide]
  /\ peaks_emit (N_hide l) (destroy (store_run ops (construct v editing h stored)))
     = _onSegmentsHide l (destroy (store_run ops (construct v editing h stored)))
  /\ trace (peaks_emit (N_hide ["s1"]) (destroy (one_segment zoomview)))
     = trace (destroy (one_segment zoomview)) ++ [shape_hide shape_s1; layer_draw].
Proof.
  destruct (construct_Held v editing h stored) as [Hs Hh].
  destruct (store_run_Held ops _ Hs Hh) as [Hsub _].
  set (w := store_run ops (construct v editing h stored)) in *.
  destruct (destroy_spec w) as (_ & _ & _ & _ & Ht & Hsu).
  assert (Hsu' : subscriptions (destroy w) = [("segments.hide", H_onSegmentsHide)])
    by (rewrite Hsu, Hsub; reflexivity).
  split; [exact Ht|]. split; [exact Hsu'|].
  split; [unfold reached; rewrite Hsu'; reflexivity|].
  split; [unfold peaks_emit; rewrite Hsu'; reflexivity|].
  vm_compute. reflexivity.
Qed.


(** *** Hiding *)

Lemma hideSegment_spec i w :
  _segmentShapes (this (_hideSegment i w)) = _segmentShapes (this w)
  /\ view (_hideSegment i w) = view w
  /\ (forall sh, lookup i (_segmentShapes (this w)) = Some sh ->
                 In (shape_hide sh) (trace (_hideSegment i w))
                 /\ hidden (heap (_hideSegment i w) i) = true)
  /\ (forall j, hidden (heap w j) = true -> hidden (heap (_hideSegment i w) j) = true)
  /\ (forall j, lookup j (_segmentShapes (this w)) = None ->
                heap (_hideSegment i w) j = heap w j)
  /\ (forall j, startTime (heap (_hideSegment i w) j) = startTime (heap w j)
                /\ endTime (heap (_hideSegment i w) j) = endTime (heap w j))
  /\ Since Keeps w (_hideSegment i w).
Proof.
  unfold _hideSegment.
  destruct (lookup i (_segmentShapes (this w))) as [sh|] eqn:E; simpl.
  - split; [reflexivity|]. split; [reflexivity|]. split; [|split; [|split; [|split]]].
    + intros sh' [= <-]. split; [apply in_or_app; right; now left|].
      unfold write. now rewrite String.eqb_refl.
    + intros j Hj. unfold write. destruct (String.eqb j i); [reflexivity | exact Hj].
    + intros j Hj. unfold write. destruct (String.eqb_spec j i) as [->|]; [congruence | reflexivity].
    + intros j. unfold write. destruct (String.eqb_spec j i) as [->|]; split; reflexivity.
    + exists [shape_hide sh]. split; [reflexivity|]. constructor; [repeat split | constructor].
  - split; [reflexivity|]. split; [reflexivity|].
    split; [discriminate|]. repeat split; auto. apply Since_refl.
Qed.

Lemma forEach_hideSegment_spec l :
  forall w,
    _segmentShapes (this (forEach l _hideSegment w)) = _segmentShapes (this w)
    /\ view (forEach l _hideSegment w) = view w
    /\ (forall i sh, In i l -> lookup i (_segmentShapes (this w)) = Some sh ->
                     In (shape_hide sh) (trace (forEach l _hideSegment w))
                     /\ hidden (heap (forEach l _hideSegment w) i) = true)
    /\ (forall j, hidden (heap w j) = true ->
                  hidden (heap (forEach l _hideSegment w) j) = true)
    /\ (forall j, lookup j (_segmentShapes (this w)) = None ->
                  heap (forEach l _hideSegment w) j = heap w j)
    /\ (forall j, startTime (heap (forEach l _hideSegment w) j) = startTime (heap w j)
                  /\ endTime (heap (forEach l _hideSegment w) j) = endTime (heap w j))
    /\ Since Keeps w (forEach l _hideSegment w).
Proof.
  induction l as [|i l IH]; intros w.
  - simpl. repeat split; auto; try contradiction. apply Since_refl.
  - unfold forEach in *. simpl.
    destruct (hideSegment_spec i w) as (A1 & A2 & A3 & A4 & A5 & A6 & A7).
    destruct (IH (_hideSegment i w)) as (B1 & B2 & B3 & B4 & B5 & B6 & B7).
    rewrite A1 in B1, B3, B5.
    split; [exact B1|]. split; [congruence|].
    split; [|split; [|split; [|split]]].
    + intros j sh [<-|Hj] Hl.
      * destruct (A3 sh Hl) as [Hin Hh]. split; [eapply Since_In; eassumption | auto].
      * now apply B3.
    + auto.
    + intros j Hj. rewrite (B5 j Hj). now apply A5.
    + intros j. destruct (A6 j), (B6 j). split; congruence.
    + eapply Since_trans; eassumption.
Qed.


(** *** Redraws *)

Lemma removeInvisible_loop_subset t0 t1 ids :
  forall n w k v,
    In (k, v) (_segmentShapes (this (snd (removeInvisible_loop ids t0 t1 n w)))) ->
    In (k, v) (_segmentShapes (this w)).
Proof.
  induction ids as [|sid ids IH]; intros n w k v; simpl; [auto|].
  destruct (lookup sid (_segmentShapes (this w))) as [sh|]; [|apply IH].
  destruct (isVisible _ _ _); simpl; [apply IH|].
  intros H. apply IH in H. now apply removeSegment_spec in H as [H _].
Qed.

Lemma updateSegments_keys_subset t0 t1 w k :
  In k (keys (_segmentShapes (this (updateSegments t0 t1 w)))) ->
  In k (find t0 t1 w) \/ In k (keys (_segmentShapes (this w))).
Proof.
  unfold updateSegments, _removeInvisibleSegments.
  destruct (forEach_updateSegment_spec (find t0 t1 w) w) as (_ & Hk1 & _).
  set (w1 := forEach (find t0 t1 w) _updateSegment w) in *.
  pose proof (removeInvisible_loop_subset t0 t1 (keys (_segmentShapes (this w1))) 0 w1) as Hsub.
  destruct (removeInvisible_loop _ t0 t1 0 w1) as [removed w2]. simpl in Hsub.
  assert (E : _segmentShapes (this (if (0 <? List.length (find t0 t1 w) + removed)%nat
                                    then draw w2 else w2)) = _segmentShapes (this w2))
    by (destruct (0 <? _)%nat; [apply shapes_draw | reflexivity]).
  rewrite E. intros Hin. apply keys_In in Hin as (v & Hin). apply Hsub in Hin.
  apply Hk1. apply keys_In. eauto.
Qed.

Lemma frame_times w w' :
  Frame w w' -> frameStartTime w' = frameStartTime w /\ frameEndTime w' = frameEndTime w.
Proof. intros (Hv & _). unfold frameStartTime, frameEndTime. now rewrite Hv. Qed.

Lemma find_Frame t0 t1 w w' : Frame w w' -> find t0 t1 w' = find t0 t1 w.
Proof. intros (_ & Hh & Hs & _). unfold find. now rewrite Hh, Hs. Qed.

(** [_onSegmentsUpdate], by the value of its [redraw] flag. *)
Lemma onSegmentsUpdate_cases i w :
  exists (redraw : bool) (w2 : World),
    _onSegmentsUpdate i w
    = (if redraw then updateSegments (frameStartTime w) (frameEndTime w) w2 else w2)
    /\ Frame w w2
    /\ Since (fun c => is_draw c = false) w w2
    /\ (redraw = false -> w2 = w)
    /\ (lookup i (_segmentShapes (this w)) <> None
        \/ isVisible (heap w i) (frameStartTime w) (frameEndTime w) = true ->
        redraw = true)
    /\ (isVisible (heap w i) (frameStartTime w) (frameEndTime w) = false ->
        w2 = _removeSegment i w).
Proof.
  unfold _onSegmentsUpdate.
  destruct (removeSegment_spec i w) as (Hf1 & _ & Hs1 & _).
  assert (Hheap1 : heap (_removeSegment i w) = heap w) by (destruct Hf1 as (_ & H & _); exact H).
  destruct (lookup i (_segmentShapes (this w))) as [sh|] eqn:El; cbv zeta.
  - rewrite Hheap1.
    destruct (isVisible (heap w i) (frameStartTime w) (frameEndTime w)) eqn:Hv.
    + destruct (addSegmentShape_spec i (_removeSegment i w)) as (Hf2 & _ & _ & Hs2).
      exists true, (snd (_addSegmentShape i (_removeSegment i w))).
      split; [reflexivity|]. split; [eapply Frame_trans; eassumption|].
      split; [|split; [discriminate | split; [reflexivity | discriminate]]].
      eapply Since_trans.
      * eapply Since_impl; [|exact Hs1]. now intros c [H _].
      * eapply Since_impl; [|exact Hs2]. now intros c [H _].
    + exists true, (_removeSegment i w).
      split; [reflexivity|]. split; [exact Hf1|].
      split; [eapply Since_impl; [|exact Hs1]; now intros c [H _]|].
      split; [discriminate | split; reflexivity].
  - assert (Hrm : _removeSegment i w = w) by (unfold _removeSegment; now rewrite El).
    destruct (isVisible (heap w i) (frameStartTime w) (frameEndTime w)) eqn:Hv.
    + destruct (addSegmentShape_spec i w) as (Hf2 & _ & _ & Hs2).
      exists true, (snd (_addSegmentShape i w)).
      split; [reflexivity|]. split; [exact Hf2|].
      split; [eapply Since_impl; [|exact Hs2]; now intros c [H _]|].
      split; [discriminate | split; [reflexivity | discriminate]].
    + exists false, w. split; [reflexivity|]. split; [apply Frame_refl|].
      split; [apply Since_refl|]. split; [reflexivity|].
      split; [intros [H|H]; congruence | now rewrite Hrm].
Qed.

Lemma updateSegments_after t0 t1 w w2 :
  Frame w w2 -> Since (fun c => is_draw c = false) w w2 ->
  (redraws (updateSegments t0 t1 w2) <= redraws w + 1)%nat
  /\ (is_overview w = true -> redraws (updateSegments t0 t1 w2) = redraws w)
  /\ (is_overview w = false -> find t0 t1 w <> [] ->
      redraws (updateSegments t0 t1 w2) = (redraws w + 1)%nat).
Proof.
  intros Hf Hs.
  destruct (updateSegments_spec t0 t1 w2) as (_ & _ & _ & H1 & H2 & H3).
  rewrite (is_overview_Frame _ _ Hf), (find_Frame _ _ _ _ Hf) in *.
  rewrite (Since_redraws _ _ Hs) in *. auto.
Qed.

Lemma mutations_emit c w :
  mutations (emit c w) = (mutations w + (if is_mutation c then 1 else 0))%nat.
Proof.
  unfold mutations, emit; simpl. rewrite filter_app, length_app. simpl.
  destruct (is_mutation c); reflexivity.
Qed.

Lemma removeSegment_mutations i w :
  (mutations (_removeSegment i w) <= mutations w + 1)%nat.
Proof.
  unfold _removeSegment. destruct (lookup i (_segmentShapes (this w))); [|lia].
  change (mutations (set_shapes (delete i (_segmentShapes (this w)))
                       (emit (shape_destroy s) w)))
    with (mutations (emit (shape_destroy s) w)).
  rewrite mutations_emit. simpl. lia.
Qed.

Lemma removeInvisible_loop_count t0 t1 ids :
  forall n w,
    (n <= fst (removeInvisible_loop ids t0 t1 n w))%nat
    /\ (mutations (snd (removeInvisible_loop ids t0 t1 n w))
        <= mutations w + (fst (removeInvisible_loop ids t0 t1 n w) - n))%nat.
Proof.
  induction ids as [|sid ids IH]; intros n w; simpl; [lia|].
  destruct (lookup sid (_segmentShapes (this w))) as [sh|]; [|apply IH].
  destruct (isVisible _ _ _); simpl; [apply IH|].
  destruct (IH (S n) (_removeSegment (getSegment sh) w)) as [H1 H2].
  pose proof (removeSegment_mutations (getSegment sh) w). lia.
Qed.

Lemma updateSegments_mutations t0 t1 w :
  is_overview w = false ->
  (mutations w < mutations (updateSegments t0 t1 w))%nat ->
  redraws (updateSegments t0 t1 w) = (redraws w + 1)%nat.
Proof.
  intros Ho Hm.
  destruct (find t0 t1 w) as [|i l] eqn:Ef.
  - revert Hm. unfold updateSegments, _removeInvisibleSegments. rewrite Ef. simpl.
    destruct (removeInvisible_loop_spec t0 t1 (keys (_segmentShapes (this w))) 0 w)
      as (Hf & _ & Hs).
    destruct (removeInvisible_loop_count t0 t1 (keys (_segmentShapes (this w))) 0 w)
      as [_ Hc].
    destruct (removeInvisible_loop _ t0 t1 0 w) as [removed w2]. simpl in *.
    destruct removed as [|r]; simpl.
    + intros Hm. lia.
    + intros _. rewrite redraws_draw, (is_overview_Frame _ _ Hf), Ho. f_equal.
      apply Since_redraws. eapply Since_impl; [|exact Hs]. now intros c [H _].
  - destruct (updateSegments_spec t0 t1 w) as (_ & _ & _ & _ & _ & H).
    apply H; [exact Ho | rewrite Ef; discriminate].
Qed.

Lemma forEach_addVisible_none t0 t1 l w :
  existsb (fun i => isVisible (heap w i) t0 t1) l = false ->
  forEach l (fun segment acc =>
               if isVisible (heap acc segment) t0 t1
               then snd (_addSegmentShape segment acc) else acc) w = w.
Proof.
  unfold forEach. induction l as [|i l IH]; simpl; [reflexivity|].
  intros H. apply orb_false_iff in H as [H1 H2]. rewrite H1. now apply IH.
Qed.

(** Redraws per notification, for notifications naming [Plain] ids.  A
    handler redraws the backend at most once per notification, whatever
    the number of segments; in the overview it never redraws.  In any
    other view a notification about segments of the store that causes at
    least one proxy mutation is followed by exactly one redraw, the update
    of a displayed segment that no longer overlaps the visible range set
    apart: there the shape is destroyed, the segment holds no shape
    afterwards and no shape is constructed for it.  The remove, hide,
    remove_all and dragged handlers always redraw exactly once, add and
    update whenever [find] returns a segment for the visible range. *)
Lemma one_redraw_per_notification (w : World) (n : Notification) :
  Forall Plain (notified n) -> Forall Plain (store w) ->
  (redraws (handle n w) <= redraws w + 1)%nat
  /\ (is_overview w = true -> redraws (handle n w) = redraws w)
  /\ (is_overview w = false -> about_store n w -> ~ moved_out n w ->
      (mutations w < mutations (handle n w))%nat ->
      redraws (handle n w) = (redraws w + 1)%nat)
  /\ (is_overview w = false ->
      match n with
      | N_remove _ | N_hide _ | N_remove_all | N_dragged _ =>
          redraws (handle n w) = (redraws w + 1)%nat
      | N_add _ =>
          find (frameStartTime w) (frameEndTime w) w <> [] ->
          redraws (handle n w) = (redraws w + 1)%nat
      | N_update i =>
          find (frameStartTime w) (frameEndTime w) w <> [] ->
          lookup i (_segmentShapes (this w)) <> None
          \/ isVisible (heap w i) (frameStartTime w) (frameEndTime w) = true ->
          redraws (handle n w) = (redraws w + 1)%nat
      end)
  /\ (forall i sh,
        n = N_update i ->
        lookup i (_segmentShapes (this w)) = Some sh ->
        isVisible (heap w i) (frameStartTime w) (frameEndTime w) = false ->
        In (shape_destroy sh) (trace (handle n w))
        /\ lookup i (_segmentShapes (this (handle n w))) = None
        /\ Since (NotNewFor i) w (handle n w)).
Proof.
  intros _ _.
  assert (Hsimple : forall w1, Frame w w1 -> Since (fun c => is_draw c = false) w w1 ->
            (redraws (draw w1) <= redraws w + 1)%nat
            /\ (is_overview w = true -> redraws (draw w1) = redraws w)
            /\ (is_overview w = false -> redraws (draw w1) = (redraws w + 1)%nat)).
  { intros w1 Hf Hs. rewrite redraws_draw, (is_overview_Frame _ _ Hf), (Since_redraws _ _ Hs).
    destruct (is_overview w); repeat split; intros; try lia; discriminate. }
  destruct n as [i | l | l | l | | i]; simpl.
  - (* update *)
    destruct (onSegmentsUpdate_cases i w) as (redraw & w2 & E & Hf & Hs & Hno & Hyes & Hout).
    rewrite E.
    destruct (updateSegments_after (frameStartTime w) (frameEndTime w) w w2 Hf Hs)
      as (U1 & U2 & U3).
    split; [|split; [|split; [|split]]].
    + destruct redraw; [exact U1 | rewrite (Hno eq_refl); lia].
    + intros Ho. destruct redraw; [auto | now rewrite (Hno eq_refl)].
    + intros Ho Hin Hnot Hm.
      destruct (isVisible (heap w i) (frameStartTime w) (frameEndTime w)) eqn:Hv.
      * rewrite (Hyes (or_intror eq_refl)). apply U3; [exact Ho|].
        intros Hnil.
        assert (Hi : In i (find (frameStartTime w) (frameEndTime w) w))
          by (apply find_In; now split).
        rewrite Hnil in Hi. destruct Hi.
      * destruct (lookup i (_segmentShapes (this w))) as [sh|] eqn:El.
        -- exfalso. apply Hnot. split; [discriminate | reflexivity].
        -- destruct redraw.
           ++ rewrite (Hout eq_refl) in Hm |- *.
              assert (Hrm : _removeSegment i w = w) by (unfold _removeSegment; now rewrite El).
              rewrite Hrm in Hm |- *.
              now apply updateSegments_mutations.
           ++ rewrite (Hno eq_refl) in Hm. lia.
    + intros Ho Hne Hor. rewrite (Hyes Hor). auto.
    + intros i' sh [= <-] Hl Hv.
      assert (Hsome : lookup i (_segmentShapes (this w)) <> None) by (rewrite Hl; discriminate).
      rewrite (Hyes (or_introl Hsome)). rewrite (Hout Hv).
      destruct (removeSegment_spec i w) as (Hf1 & Hm1 & Hs1 & Hd1).
      set (w1 := _removeSegment i w) in *.
      destruct (updateSegments_spec (frameStartTime w) (frameEndTime w) w1)
        as (Hfu & _ & Hnew & _).
      assert (Hvis1 : forall j, In j (find (frameStartTime w) (frameEndTime w) w1) -> j <> i).
      { intros j Hj ->. apply find_In in Hj as [_ Hj].
        destruct Hf1 as (_ & Hh & _). rewrite Hh in Hj. congruence. }
      split; [eapply Since_In; [exact Hnew | now apply Hd1]|]. split.
      * apply lookup_None. intros Hin. apply updateSegments_keys_subset in Hin as [Hin|Hin].
        -- now apply (Hvis1 i).
        -- apply keys_In in Hin as (v & Hin). apply Hm1 in Hin as [_ Hne]. congruence.
      * eapply Since_trans.
        -- eapply Since_impl; [|exact Hs1]. intros c [_ H] Hn. congruence.
        -- eapply Since_impl; [|exact Hnew]. intros c H Hn.
           destruct (H Hn) as (j & Hj & ->). intros [= ->]. now apply (Hvis1 i).
  - (* add *)
    unfold _onSegmentsAdd.
    destruct (forEach_addVisible_spec (frameStartTime w) (frameEndTime w) l w)
      as (Hf1 & _ & _ & Hs1); cbv zeta in *.
    pose proof (forEach_addVisible_none (frameStartTime w) (frameEndTime w) l w) as Hnone.
    set (w1 := forEach l _ w) in *.
    assert (Hs : Since (fun c => is_draw c = false) w w1)
      by (eapply Since_impl; [|exact Hs1]; now intros c [H _]).
    destruct (updateSegments_after (frameStartTime w) (frameEndTime w) w w1 Hf1 Hs)
      as (U1 & U2 & U3).
    split; [exact U1|]. split; [exact U2|].
    split; [|split; [exact U3 | intros i sh [=]]].
    intros Ho Hin _ Hm.
    destruct (existsb (fun i => isVisible (heap w i) (frameStartTime w) (frameEndTime w)) l)
      eqn:Ex.
    + apply existsb_exists in Ex as (i & Hi & Hv). apply U3; [exact Ho|].
      intros Hnil.
      assert (Hfi : In i (find (frameStartTime w) (frameEndTime w) w))
        by (apply find_In; split; [now apply Hin | exact Hv]).
      rewrite Hnil in Hfi. destruct Hfi.
    + rewrite (Hnone eq_refl) in Hm |- *. now apply updateSegments_mutations.
  - (* remove *)
    unfold _onSegmentsRemove.
    destruct (forEach_removeSegment_spec l w) as (Hf & _ & Hs).
    assert (Hs' : Since (fun c => is_draw c = false) w (forEach l _removeSegment w))
      by (eapply Since_impl; [|exact Hs]; now intros c [H _]).
    destruct (Hsimple _ Hf Hs') as (S1 & S2 & S3).
    split; [exact S1|]. split; [exact S2|].
    split; [auto|]. split; [exact S3|]. intros i sh [=].
  - (* hide *)
    unfold _onSegmentsHide.
    destruct (forEach_hideSegment_spec l w) as (_ & B2 & _ & _ & _ & _ & B7).
    assert (Hr : redraws (draw (forEach l _hideSegment w))
                 = (redraws w + (if is_overview w then 0 else 1))%nat).
    { assert (Hov : is_overview (forEach l _hideSegment w) = is_overview w)
        by (unfold is_overview; now rewrite B2).
      rewrite redraws_draw, Hov. f_equal. apply Since_redraws.
      eapply Since_impl; [|exact B7]. now intros c (H & _). }
    rewrite Hr.
    destruct (is_overview w); repeat split; intros; try lia; discriminate.
  - (* remove_all *)
    unfold _onSegmentsRemoveAll.
    assert (Hf : Frame w (set_shapes [] (emit layer_removeChildren w))) by (repeat split).
    assert (Hs : Since (fun c => is_draw c = false) w
                   (set_shapes [] (emit layer_removeChildren w)))
      by (exists [layer_removeChildren]; split; [reflexivity | repeat constructor]).
    destruct (Hsimple _ Hf Hs) as (S1 & S2 & S3).
    split; [exact S1|]. split; [exact S2|].
    split; [auto|]. split; [exact S3|]. intros i sh [=].
  - (* dragged *)
    unfold _onSegmentsDragged.
    destruct (updateSegment_spec i w) as (Hf & _ & _ & Hs).
    assert (Hs' : Since (fun c => is_draw c = false) w (_updateSegment i w))
      by (eapply Since_impl; [|exact Hs]; now intros c [H _]).
    destruct (Hsimple _ Hf Hs') as (S1 & S2 & S3).
    split; [exact S1|]. split; [exact S2|].
    split; [auto|]. split; [exact S3|]. intros i' sh [=].
Qed.

(** C2, where the code departs from the claim.  In a view other than the
    overview, the one displayed segment is updated to times outside the
    visible range and no segment of the store is left in the range.
    [_onSegmentsUpdate] destroys the shape and sets [redraw], then leaves
    the redraw to [updateSegments], which draws only when [find] returned
    a segment or the scan removed a shape; neither is the case, so the
    proxy mutation is followed by no redraw at all. *)
Theorem moved_out_update_is_not_redrawn (w : World) (i : Id) (sh : SegmentShape) :
  is_overview w = false ->
  _segmentShapes (this w) = [(i, sh)] ->
  isVisible (heap w i) (frameStartTime w) (frameEndTime w) = false ->
  find (frameStartTime w) (frameEndTime w) w = [] ->
  trace (_onSegmentsUpdate i w) = trace w ++ [shape_destroy sh]
  /\ _segmentShapes (this (_onSegmentsUpdate i w)) = []
  /\ mutations (_onSegmentsUpdate i w) = (mutations w + 1)%nat
  /\ redraws (_onSegmentsUpdate i w) = redraws w.
Proof.
  intros _ Hm Hv Hf.
  assert (Hl : lookup i (_segmentShapes (this w)) = Some sh)
    by (rewrite Hm; simpl; now rewrite String.eqb_refl).
  destruct (onSegmentsUpdate_cases i w) as (redraw & w2 & E & _ & _ & _ & Hr & Hw2).
  assert (Hredraw : redraw = true) by (apply Hr; left; congruence).
  rewrite Hredraw, (Hw2 Hv) in E.
  assert (Hrem : _removeSegment i w = set_shapes [] (emit (shape_destroy sh) w)).
  { unfold _removeSegment. rewrite Hl, Hm. simpl. now rewrite String.eqb_refl. }
  assert (Hf' : find (frameStartTime w) (frameEndTime w)
                  (set_shapes [] (emit (shape_destroy sh) w)) = []) by exact Hf.
  rewrite E, Hrem. unfold updateSegments, _removeInvisibleSegments. rewrite Hf'. simpl.
  unfold mutations, redraws. simpl. rewrite !filter_app, !length_app. simpl.
  repeat split; lia.
Qed.

End AnyVisibility.

(** *** The scenarios, with the visibility of the specification *)

Lemma proxies_are_the_segments_found_witness :
  In "s1" (keys (_segmentShapes (this added_then_hidden)))
  <-> In "s1" (find 0 20 added_then_hidden).
Proof.
  unfold added_then_hidden, empty_zoomview.
  apply proxies_are_the_segments_found; repeat constructor.
Defined.


Lemma moved_out_update_is_not_redrawn_witness :
  trace (_onSegmentsUpdate "s1" s1_moved_out) = trace s1_moved_out ++ [shape_destroy shape_s1]
  /\ _segmentShapes (this (_onSegmentsUpdate "s1" s1_moved_out)) = []
  /\ mutations (_onSegmentsUpdate "s1" s1_moved_out) = (mutations s1_moved_out + 1)%nat
  /\ redraws (_onSegmentsUpdate "s1" s1_moved_out) = redraws s1_moved_out.
Proof.
  apply (moved_out_update_is_not_redrawn s1_moved_out "s1" shape_s1);
    vm_compute; reflexivity.
Defined.

(** C1, the claim as stated fails on a hidden segment: added with its
    hidden flag set, or added and then hidden by a notification, the
    segment "s1" (5 s to 10 s) is returned by [find(0, 20)] and holds a
    shape after [updateSegments(0, 20)], while no segment is both found
    and not hidden. *)
Lemma hidden_segment_holds_a_proxy :
  (keys (_segmentShapes (this added_hidden)) = ["s1"]
   /\ find 0 20 added_hidden = ["s1"]
   /\ not_hidden added_hidden (find 0 20 added_hidden) = [])
  /\ (keys (_segmentShapes (this added_then_hidden)) = ["s1"]
      /\ find 0 20 added_then_hidden = ["s1"]
      /\ not_hidden added_then_hidden (find 0 20 added_then_hidden) = []).
Proof. repeat split. Qed.



(** In the overview, where redraws are suppressed by the guard of [draw]:
    removing the tracked segment "s1" destroys its shape, one proxy
    mutation, and the backend is not redrawn. *)
Example overview_mutation_without_redraw :
  is_overview (one_segment overview) = true
  /\ trace (handle (N_remove ["s1"]) (one_segment overview))
     = trace (one_segment overview) ++ [shape_destroy shape_s1]
  /\ redraws (handle (N_remove ["s1"]) (one_segment overview))
     = redraws (one_segment overview).
Proof. repeat split; vm_compute; reflexivity. Qed.

(** The same through the store: in the zoom view, with "s1" the only
    segment in range, updating it to 30 s .. 40 s destroys its shape,
    constructs none, and the backend is not redrawn, because the
    reconciliation pass finds nothing to count. *)
Example last_segment_moved_out_is_not_redrawn :
  trace (store_step (store_update "s1" 30 40) (one_segment zoomview))
  = trace (one_segment zoomview) ++ [shape_destroy shape_s1]
  /\ redraws (store_step (store_update "s1" 30 40) (one_segment zoomview))
     = redraws (one_segment zoomview)
  /\ _segmentShapes (this (store_step (store_update "s1" 30 40) (one_segment zoomview))) = [].
Proof. repeat split; vm_compute; reflexivity. Qed.

(** The theorem on redraws at the added segment: the notification is about
    a segment of the store, it causes proxy mutations, and one redraw
    follows. *)
Example one_redraw_for_the_added_segment :
  redraws (handle (N_add ["s1"])
             (set_store ["s1"] (set_heap (write "s1" segment_5_10 no_segments) empty_zoomview)))
  = 1%nat.
Proof.
  destruct (one_redraw_per_notification
              (set_store ["s1"] (set_heap (write "s1" segment_5_10 no_segments) empty_zoomview))
              (N_add ["s1"]) ltac:(repeat constructor) ltac:(repeat constructor))
    as (_ & _ & H & _).
  rewrite H; [reflexivity | reflexivity | | | vm_compute; lia].
  - intros i [<-|[]]. now left.
  - intros [].
Qed.

(** The scenario of an added segment: "s1" from 5 s to 10 s added while
    the view shows 0 s .. 20 s makes one shape and one redraw. *)
Example added_segment_one_proxy_one_redraw :
  trace (one_segment zoomview)
  = [new_SegmentShape shape_s1 true; shape_addToLayer shape_s1;
     shape_updatePosition shape_s1; layer_draw]
  /\ _segmentShapes (this (one_segment zoomview)) = [("s1", shape_s1)].
Proof. repeat split; vm_compute; reflexivity. Qed.

End SegmentsFacts.

(** ** Further properties of the mouse-drag handler *)

Module MouseDragMore.
Import Js MouseDrag MouseDragFacts.

Lemma Node_rect' (P : Node -> Prop) :
  (forall l d, P (MkNode l d None)) ->
  (forall l d p, P p -> P (MkNode l d (Some p))) ->
  forall n, P n.
Proof.
  intros Hroot Hstep. fix IH 1. intros [l d [p|]].
  - apply Hstep, IH.
  - apply Hroot.
Qed.

Lemma getMarkerObject_find (obj : Node) :
  getMarkerObject obj = List.find child_of_layer (chain obj).
Proof.
  induction obj as [l d | l d p IH] using Node_rect'; [reflexivity|].
  simpl. unfold child_of_layer at 1. simpl.
  destruct (node_isLayer p); [reflexivity | exact IH].
Qed.

(** [getMarkerObject(obj)] walks from [obj] upwards and returns the nearest
    node, [obj] itself included, whose parent is a layer; it returns null
    exactly when no node on the way up has a layer as parent (in
    particular for a node without parent). *)
Theorem getMarkerObject_nearest_child_of_layer (obj : Node) :
  getMarkerObject obj = List.find child_of_layer (chain obj)
  /\ (forall m, getMarkerObject obj = Some m ->
                In m (chain obj) /\ child_of_layer m = true)
  /\ (getMarkerObject obj = None <->
      forall n, In n (chain obj) -> child_of_layer n = false).
Proof.
  split; [apply getMarkerObject_find|]. rewrite getMarkerObject_find. split.
  - intros m H. now apply find_some in H.
  - split.
    + intros H n Hn. exact (find_none _ _ H n Hn).
    + intros H. destruct (List.find child_of_layer (chain obj)) as [m|] eqn:E; [|reflexivity].
      apply find_some in E as [Hin Hc]. rewrite (H m Hin) in Hc. discriminate.
Qed.

(** A press in any state the constructor's wiring is kept in. *)
Lemma press_any (w : World) (p : Press) :
  Wired w ->
  exists w1,
    stage_fire (press_event p) w = Ok w1
    /\ Wired w1
    /\ window_listeners (dom w1) = window_add_all (window_listeners (dom w))
    /\ origin_is (origin p) w1
    /\ _dragging (this w1) = _dragging (this w)
    /\ _handlers (this w1) = _handlers (this w)
    /\ containerPos (dom w1) = containerPos (dom w)
    /\ calls (trace w1)
       = calls (trace w)
         ++ (if onMouseDown (_handlers (this w))
             then [call_onMouseDown
                     (Fin (fst (origin p) - rect_left (containerPos (dom w))))
                     (_getMousePosY w (clientY (evt (press_event p))))]
             else []).
Proof.
  intros [Hst Hhd].
  destruct w as [o d t]; destruct o, d; simpl in *; subst.
  unfold stage_fire, calls; simpl.
  destruct p as [x y n | t0 ts n]; simpl; unfold _mouseDown; simpl;
    destruct (onMouseDown _handlers0); simpl;
    eexists; (split; [reflexivity|]); simpl;
    unfold Wired, origin_is; simpl;
    rewrite ?flat_map_app, ?app_nil_r; simpl; repeat split.
Qed.

Lemma In_addEventListener reg ty m ls :
  In reg (addEventListener ty m ls) <-> reg = (ty, m) \/ In reg ls.
Proof.
  unfold addEventListener. destruct (existsb (same ty m) ls) eqn:E.
  - split; [now right|]. intros [->|H]; [|exact H].
    apply existsb_exists in E as ([ty' m'] & Hin & Hs). unfold same in Hs; simpl in Hs.
    apply andb_true_iff in Hs as [H1 H2]. apply String.eqb_eq in H1. subst ty'.
    destruct m, m'; try discriminate; exact Hin.
  - rewrite in_app_iff. simpl. intuition.
Qed.

Lemma In_window_add_all reg ls :
  In reg (window_add_all ls) <-> In reg (window_add_all []) \/ In reg ls.
Proof.
  unfold window_add_all. rewrite !In_addEventListener. simpl. intuition.
Qed.

Lemma invoke_Wired (c : MethodCall) (w w' : World) :
  Wired w -> invoke c w = Ok w' -> Wired w'.
Proof.
  intros [Hst Hhd] E. unfold Wired.
  destruct c; simpl in E.
  - unfold _contextMenu in E. destruct (preventContextMenu _); injection E as <-; auto.
  - unfold _mouseDown in E. rewrite Hhd in E. simpl in E.
    destruct (String.eqb (ktype event) "touchstart");
      [destruct (touches (evt event)); [discriminate|]|]; simpl in E;
      destruct (onMouseDown _); injection E as <-; simpl; auto.
  - unfold _mouseWheel in E. destruct (onMouseWheel _); injection E as <-; auto.
  - unfold _mouseMove, client_of in E.
    destruct (String.eqb (type event) "touchmove");
      [destruct (changedTouches event); [discriminate|]|]; simpl in E;
      destruct (exceeds _ _ _); simpl in E;
      destruct (onMouseMove _); injection E as <-; auto.
  - unfold _mouseUp, client_of in E.
    destruct (String.eqb (type event) "touchend");
      [destruct (changedTouches event); [discriminate|]|]; simpl in E;
      try destruct (cancelable event); simpl in E;
      destruct (onMouseUp _); injection E as <-; auto.
  - injection E as <-; auto.
  - injection E as <-; auto.
  - injection E as <-; auto.
Qed.

Lemma method_run_Wired (cs : list MethodCall) :
  forall w, Wired w -> Wired (method_run cs w).
Proof.
  unfold method_run. induction cs as [|c cs IH]; intros w Hw; simpl; [exact Hw|].
  apply IH. destruct (invoke c w) as [w'|] eqn:E; simpl; [|exact Hw].
  eapply invoke_Wired; eassumption.
Qed.

(** The marker passthrough of [_mouseDown] never applies.  The constructor
    sets [_handleDrag] but [_mouseDown] tests [__handleDrag], which nothing
    assigns: whatever methods ran before and whatever the target of the
    press, a draggable marker included, the press is captured: its origin
    is recorded and the five window listeners are registered. *)
Theorem press_is_always_captured
    (handlers : MouseDragHandlers) (options : Options) (pos : DOMRect)
    (cs : list MethodCall) (p : Press) :
  exists w1,
    stage_fire (press_event p) (method_run cs (construct handlers options pos)) = Ok w1
    /\ origin_is (origin p) w1
    /\ (forall ty, In ty window_types ->
                   exists m, In (ty, m) (window_listeners (dom w1)))
    /\ (onMouseDown handlers = true ->
        exists x y, calls (trace w1)
                    = calls (trace (method_run cs (construct handlers options pos)))
                      ++ [call_onMouseDown x y]).
Proof.
  assert (Hw : Wired (method_run cs (construct handlers options pos)))
    by (apply method_run_Wired; repeat split).
  assert (Hh : forall cs' w, _handlers (this (method_run cs' w)) = _handlers (this w)).
  { unfold method_run. induction cs' as [|c cs' IH]; intros w; simpl; [reflexivity|].
    rewrite IH. destruct (invoke c w) as [w'|] eqn:E; simpl; [|reflexivity].
    destruct c; simpl in E.
    - unfold _contextMenu in E. destruct (preventContextMenu _); injection E as <-; auto.
    - unfold _mouseDown in E.
      destruct (truthy _ && marker_is_draggable _); [injection E as <-; auto|].
      destruct (String.eqb (ktype event) "touchstart");
        [destruct (touches (evt event)); [discriminate|]|]; simpl in E;
        destruct (onMouseDown _); injection E as <-; simpl; auto.
    - unfold _mouseWheel in E. destruct (onMouseWheel _); injection E as <-; auto.
    - unfold _mouseMove, client_of in E.
      destruct (String.eqb (type event) "touchmove");
        [destruct (changedTouches event); [discriminate|]|]; simpl in E;
        destruct (exceeds _ _ _); simpl in E;
        destruct (onMouseMove _); injection E as <-; auto.
    - unfold _mouseUp, client_of in E.
      destruct (String.eqb (type event) "touchend");
        [destruct (changedTouches event); [discriminate|]|]; simpl in E;
        try destruct (cancelable event); simpl in E;
        destruct (onMouseUp _); injection E as <-; auto.
    - injection E as <-; auto.
    - injection E as <-; auto.
    - injection E as <-; auto. }
  destruct (press_any _ p Hw) as (w1 & E1 & _ & Hwin & Ho & _ & _ & _ & Hc).
  exists w1. split; [exact E1|]. split; [exact Ho|]. split.
  - intros ty Hty. rewrite Hwin.
    assert (exists m, In (ty, m) (window_add_all [])) as [m Hm].
    { simpl in Hty. destruct Hty as [<-|[<-|[<-|[<-|[<-|[]]]]]];
        eexists; simpl; eauto 10. }
    exists m. apply In_window_add_all. now left.
  - intros Hd. rewrite Hh in Hc. simpl in Hc. rewrite Hd in Hc. eauto.
Qed.

(** Pressing on a draggable marker that sits directly under a layer. *)
Example press_on_draggable_marker_is_captured :
  marker_is_draggable draggable_marker = true
  /\ exists w1,
       stage_fire (press_event (MousePress 100 100 draggable_marker))
         (construct all_handlers no_options {| rect_left := 50; rect_top := 20 |}) = Ok w1
       /\ window_listeners (dom w1) = window_add_all []
       /\ calls (trace w1) = [call_onMouseDown (Fin 50) (Fin 80)].
Proof. split; [reflexivity|]. eexists. repeat split; reflexivity. Qed.

Lemma pressed_world_InSession : InSession pressed_world.
Proof. repeat split. Qed.

(** A press while a session is already open (a second finger, a second
    button) registers no listener twice, replaces the recorded origin and
    leaves [isDragging()] as it is: [_mouseDown] never writes the flag.
    One release then ends the session. *)
Theorem second_press_keeps_the_session (w : World) (p : Press) (r : Release) :
  InSession w ->
  exists w1 w2,
    stage_fire (press_event p) w = Ok w1
    /\ window_listeners (dom w1) = window_listeners (dom w)
    /\ origin_is (origin p) w1
    /\ isDragging w1 = isDragging w
    /\ window_dispatchEvent (release_event r) w1 = Ok w2
    /\ window_listeners (dom w2) = []
    /\ isDragging w2 = false.
Proof.
  intros [Hw Hwin].
  destruct (press_any w p Hw) as (w1 & E1 & Hw1 & Hwin1 & Ho & Hd & _).
  assert (Hs1 : InSession w1).
  { split; [exact Hw1|]. rewrite Hwin1, Hwin. reflexivity. }
  destruct (release_step w1 r Hs1) as (w2 & E2 & (_ & Hwin2 & Hd2) & _).
  exists w1, w2. unfold isDragging.
  repeat match goal with |- _ /\ _ => split end; try assumption.
  rewrite Hwin1, Hwin. reflexivity.
Qed.

(** The theorem on a second press at the session of [pressed_world], dragged
    beyond the threshold before the second press. *)
Lemma second_press_keeps_the_session_witness :
  exists w0 w1 w2,
    window_dispatchEvent (move_event (MouseMove 110 100)) pressed_world = Ok w0
    /\ isDragging w0 = true
    /\ stage_fire (press_event (TouchPress {| touch_clientX := 7 # 2; touch_clientY := 9 # 2 |}
                                           [] plain_node)) w0 = Ok w1
    /\ origin_is (3, 4) w1
    /\ isDragging w1 = true
    /\ window_dispatchEvent (release_event Blur) w1 = Ok w2
    /\ isDragging w2 = false.
Proof.
  destruct (move_step pressed_world (100, 100) (MouseMove 110 100)
              pressed_world_InSession (conj eq_refl eq_refl))
    as (w0 & E0 & Hs0 & _ & Hd0 & _).
  destruct (second_press_keeps_the_session w0
              (TouchPress {| touch_clientX := 7 # 2; touch_clientY := 9 # 2 |} [] plain_node)
              Blur Hs0)
    as (w1 & w2 & E1 & _ & Ho & Hd1 & E2 & _ & Hd2).
  exists w0, w1, w2.
  split; [exact E0|]. split; [exact Hd0|]. split; [exact E1|]. split; [exact Ho|].
  split; [rewrite Hd1; exact Hd0|]. split; [exact E2 | exact Hd2].
Defined.

Ltac split_ifs :=
  repeat match goal with
         | |- context [if ?b then _ else _] => destruct b; simpl
         end.

Lemma deliver_no_match (rs : list Registration) (e : DomEvent) (w : World) :
  (forall r, In r rs -> fst r <> type e) -> deliver rs e w = Ok w.
Proof.
  induction rs as [|r rs IH]; intros H; simpl; [reflexivity|].
  assert (E : String.eqb (fst r) (type e) = false)
    by (apply String.eqb_neq, H; now left).
  rewrite E. simpl. apply IH. intros r' Hr'. apply H. now right.
Qed.

(** While a session is open, delivering a window event raises exactly when
    it is a touchmove or a touchend without any changed touch; an event of
    a type the object does not listen to reaches no handler. *)
Theorem window_event_raises_iff (w : World) (e : DomEvent) :
  InSession w ->
  (window_dispatchEvent e w = TypeError
   <-> (type e = "touchmove" \/ type e = "touchend") /\ changedTouches e = [])
  /\ (~ In (type e) window_types -> window_dispatchEvent e w = Ok w).
Proof.
  intros [[Hst Hhd] Hwin].
  assert (Hno : ~ In (type e) window_types -> window_dispatchEvent e w = Ok w).
  { intros Hn. unfold window_dispatchEvent. rewrite Hwin. apply deliver_no_match.
    intros [ty m] Hr Hty. simpl in Hty. subst ty. apply Hn.
    simpl in Hr. unfold window_types.
    destruct Hr as [Hr|[Hr|[Hr|[Hr|[Hr|[]]]]]]; injection Hr as <- _; simpl; auto 10. }
  destruct (in_dec string_dec (type e) window_types) as [Hin|Hn].
  2:{ split; [|exact Hno]. rewrite (Hno Hn).
      split; [discriminate|]. intros [[H|H] _]; exfalso; apply Hn; rewrite H; simpl; auto 10. }
  split; [|intros Hn; contradiction].
  destruct w as [ob d t]; destruct ob as [h dr op hd hd2 ox oy], d as [wl sl cl cp].
  destruct e as [ty cx cy tch ch canc]. simpl in *. subst.
  unfold window_dispatchEvent; simpl.
  destruct Hin as [<-|[<-|[<-|[<-|[<-|[]]]]]]; simpl;
    unfold _mouseMove, _mouseUp, client_of; simpl.
  - split_ifs. all: split; [discriminate | intros [[H|H] _]; discriminate].
  - destruct ch as [|t0 ts]; simpl; [split; auto|].
    split_ifs. all: split; [discriminate | intros [_ H]; discriminate].
  - split_ifs. all: split; [discriminate | intros [[H|H] _]; discriminate].
  - destruct ch as [|t0 ts]; simpl; [split; auto|].
    split_ifs. all: split; [discriminate | intros [_ H]; discriminate].
  - split_ifs. all: split; [discriminate | intros [[H|H] _]; discriminate].
Qed.

(** The theorem on raising events at the session of [pressed_world]: a
    touchend that lists no changed touch raises, and the session stays
    open. *)
Lemma window_event_raises_iff_witness :
  window_dispatchEvent (touch_event "touchend" [] [] true) pressed_world = TypeError
  /\ window_dispatchEvent (touch_event "touchcancel" [] [] true) pressed_world
     = Ok pressed_world.
Proof.
  destruct (window_event_raises_iff pressed_world (touch_event "touchend" [] [] true)
              pressed_world_InSession) as [[_ H] _].
  destruct (window_event_raises_iff pressed_world (touch_event "touchcancel" [] [] true)
              pressed_world_InSession) as [_ H'].
  split.
  - apply H. split; [now right | reflexivity].
  - apply H'. simpl. intros [H0|[H0|[H0|[H0|[H0|[]]]]]]; discriminate H0.
Defined.

(** With no handler supplied nothing is ever called, and the object keeps
    its state all the same: from the idle state a press opens the
    session, the moves raise [isDragging()] by the 3 pixel threshold (the
    origin and the moves at whole numbers of pixels), a release closes the
    session and lowers the flag. *)
Theorem absent_handlers_are_never_called
    (w : World) (p : Press) (ms : list Move) (r : Release) :
  Idle w -> _handlers (this w) = no_handlers ->
  whole_point (origin p) = true ->
  forallb (fun m => whole_point (position m)) ms = true ->
  exists w1 w2 w3,
    stage_fire (press_event p) w = Ok w1
    /\ window_run (map move_event ms) w1 = Ok w2
    /\ window_dispatchEvent (release_event r) w2 = Ok w3
    /\ isDragging w2 = existsb (fun m => beyond (origin p) (position m)) ms
    /\ calls (trace w3) = calls (trace w)
    /\ Idle w3.
Proof.
  intros Hidle Hh _ _.
  destruct (press_step w p Hidle) as (w1 & E1 & Hs1 & Ho1 & Hd1 & Hh1 & _ & Ht1).
  destruct (moves_run ms w1 (origin p) Hs1 Ho1)
    as (w2 & E2 & Hs2 & _ & Hd2 & Hh2 & _ & Ht2).
  destruct (release_step w2 r Hs2) as (w3 & E3 & Hi3 & _ & _ & Ht3).
  exists w1, w2, w3. unfold isDragging.
  rewrite Hh in Ht1. rewrite Hh1, Hh in Ht2. rewrite Hh2, Hh1, Hh in Ht3.
  simpl in Ht1, Ht2, Ht3. rewrite app_nil_r in Ht1, Ht2, Ht3.
  repeat match goal with |- _ /\ _ => split end; try assumption.
  - rewrite Hd2, Hd1. reflexivity.
  - rewrite Ht3. unfold calls in *. rewrite flat_map_app.
    replace (flat_map _ (release_prevented r)) with (@nil HandlerCall)
      by (destruct r as [| ? ? []|]; reflexivity).
    rewrite app_nil_r. congruence.
Qed.

(** The theorem on absent handlers at a session dragged beyond the
    threshold. *)
Lemma absent_handlers_are_never_called_witness :
  exists w1 w2 w3,
    stage_fire (press_event (MousePress 100 100 plain_node))
      (construct no_handlers no_options {| rect_left := 50; rect_top := 20 |}) = Ok w1
    /\ window_run (map move_event [MouseMove 104 100]) w1 = Ok w2
    /\ window_dispatchEvent (release_event (MouseUp 104 100)) w2 = Ok w3
    /\ isDragging w2 = true
    /\ calls (trace w3) = [].
Proof.
  destruct (absent_handlers_are_never_called
              (construct no_handlers no_options {| rect_left := 50; rect_top := 20 |})
              (MousePress 100 100 plain_node) [MouseMove 104 100] (MouseUp 104 100)
              (construct_Idle _ _ _) eq_refl eq_refl eq_refl)
    as (w1 & w2 & w3 & E1 & E2 & E3 & Hd & Hc & _).
  exists w1, w2, w3.
  split; [exact E1|]. split; [exact E2|]. split; [exact E3|].
  split; [exact Hd | exact Hc].
Defined.

End MouseDragMore.

(** ** Further properties of the segments layer *)

Module SegmentsMore.
Import Js Segments SegmentsFacts.

Section AnyVisibility.
Context {visibility : Visibility}.

(** *** The map is only edited *)

Lemma Edits_trans m1 m2 m3 : Edits m1 m2 -> Edits m2 m3 -> Edits m1 m3.
Proof.
  intros H12 H23. induction H23.
  - exact H12.
  - apply edits_assign; auto.
  - apply edits_delete; auto.
  - eapply edits_clear; eauto.
Qed.

Lemma removeSegment_shapes i w :
  _segmentShapes (this (_removeSegment i w))
  = match lookup i (_segmentShapes (this w)) with
    | Some _ => delete i (_segmentShapes (this w))
    | None => _segmentShapes (this w)
    end.
Proof. unfold _removeSegment. now destruct (lookup i (_segmentShapes (this w))). Qed.

Lemma removeSegment_Edits i w :
  Edits (_segmentShapes (this w)) (_segmentShapes (this (_removeSegment i w))).
Proof.
  rewrite removeSegment_shapes. destruct (lookup i _).
  - apply edits_delete, edits_none.
  - apply edits_none.
Qed.

Lemma addSegmentShape_Edits i w :
  Edits (_segmentShapes (this w)) (_segmentShapes (this (snd (_addSegmentShape i w)))).
Proof.
  destruct (addSegmentShape_spec i w) as (_ & Hsh & Hm & _). rewrite Hm.
  apply edits_assign; [apply edits_none | exact Hsh].
Qed.

Lemma updateSegment_Edits i w :
  Edits (_segmentShapes (this w)) (_segmentShapes (this (_updateSegment i w))).
Proof.
  unfold _updateSegment, _findOrAddSegmentShape.
  destruct (lookup i (_segmentShapes (this w))); [apply edits_none|].
  pose proof (addSegmentShape_Edits i w) as H.
  destruct (_addSegmentShape i w) as [sh w1]. exact H.
Qed.

Lemma forEach_Edits {A} (f : A -> World -> World) (l : list A) :
  (forall x w, Edits (_segmentShapes (this w)) (_segmentShapes (this (f x w)))) ->
  forall w, Edits (_segmentShapes (this w)) (_segmentShapes (this (forEach l f w))).
Proof.
  intros Hf w.
  apply (forEach_inv (fun w' => Edits (_segmentShapes (this w)) (_segmentShapes (this w')))).
  - intros x w' _ H. eapply Edits_trans; [exact H | apply Hf].
  - apply edits_none.
Qed.

Lemma removeInvisible_loop_Edits t0 t1 ids :
  forall n w,
    Edits (_segmentShapes (this w))
          (_segmentShapes (this (snd (removeInvisible_loop ids t0 t1 n w)))).
Proof.
  induction ids as [|sid ids IH]; intros n w; simpl; [apply edits_none|].
  destruct (lookup sid (_segmentShapes (this w))) as [sh|]; [|apply IH].
  destruct (isVisible _ _ _); simpl; [apply IH|].
  eapply Edits_trans; [apply removeSegment_Edits | apply IH].
Qed.

Lemma updateSegments_Edits t0 t1 w :
  Edits (_segmentShapes (this w)) (_segmentShapes (this (updateSegments t0 t1 w))).
Proof.
  unfold updateSegments, _removeInvisibleSegments.
  pose proof (forEach_Edits _updateSegment (find t0 t1 w) updateSegment_Edits w) as H1.
  set (w1 := forEach (find t0 t1 w) _updateSegment w) in *.
  pose proof (removeInvisible_loop_Edits t0 t1 (keys (_segmentShapes (this w1))) 0 w1) as H2.
  destruct (removeInvisible_loop _ t0 t1 0 w1) as [removed w2]. simpl in H2.
  assert (E : _segmentShapes (this (if (0 <? List.length (find t0 t1 w) + removed)%nat
                                    then draw w2 else w2)) = _segmentShapes (this w2))
    by (destruct (0 <? _)%nat; [apply shapes_draw | reflexivity]).
  rewrite E. eapply Edits_trans; eassumption.
Qed.

Lemma handle_Edits n w :
  Edits (_segmentShapes (this w)) (_segmentShapes (this (handle n w))).
Proof.
  destruct n as [i | l | l | l | | i]; simpl.
  - unfold _onSegmentsUpdate.
    destruct (lookup i (_segmentShapes (this w))); cbv zeta.
    + destruct (isVisible _ _ _).
      * eapply Edits_trans; [|apply updateSegments_Edits].
        eapply Edits_trans; [apply removeSegment_Edits | apply addSegmentShape_Edits].
      * eapply Edits_trans; [apply removeSegment_Edits | apply updateSegments_Edits].
    + destruct (isVisible _ _ _).
      * eapply Edits_trans; [apply addSegmentShape_Edits | apply updateSegments_Edits].
      * apply edits_none.
  - unfold _onSegmentsAdd.
    eapply Edits_trans; [|apply updateSegments_Edits].
    apply forEach_Edits. intros i w'. destruct (isVisible _ _ _);
      [apply addSegmentShape_Edits | apply edits_none].
  - unfold _onSegmentsRemove. rewrite shapes_draw.
    apply forEach_Edits. intros i w'. apply removeSegment_Edits.
  - unfold _onSegmentsHide. rewrite shapes_draw.
    destruct (forEach_hideSegment_spec l w) as (H & _). rewrite H. apply edits_none.
  - unfold _onSegmentsRemoveAll. rewrite shapes_draw. simpl.
    eapply edits_clear, edits_none.
  - unfold _onSegmentsDragged. rewrite shapes_draw. apply updateSegment_Edits.
Qed.

Lemma store_step_Edits op w :
  Subscribed w ->
  Edits (_segmentShapes (this w)) (_segmentShapes (this (store_step op w))).
Proof.
  intros Hsub.
  destruct op as [segs | i t0 t1 | l | | l | i t0 t1]; simpl;
    try (destruct (mem i (store w)); [|apply edits_none]);
    match goal with
    | |- context [peaks_emit ?n ?w0] =>
        rewrite (Subscribed_emit n w0 Hsub); apply (handle_Edits n w0)
    end.
Qed.

Lemma store_run_Edits ops :
  forall w, Subscribed w -> Held w ->
            Edits (_segmentShapes (this w)) (_segmentShapes (this (store_run ops w))).
Proof.
  unfold store_run. induction ops as [|op ops IH]; intros w Hs Hh; simpl; [apply edits_none|].
  destruct (store_step_Held op w Hs Hh) as [Hs' Hh'].
  (* the edits of the first operation, then those of the rest *)
  assert (H1 := store_step_Edits op w Hs).
  assert (H2 := IH (store_step op w) Hs' Hh').
  eapply Edits_trans; eassumption.
Qed.

Lemma keys_assign_eq i sh m :
  keys (assign i sh m) = if mem i (keys m) then keys m else keys m ++ [i].
Proof.
  induction m as [|[k v] m IH]; simpl; [reflexivity|].
  destruct (String.eqb_spec i k) as [->|Hne]; simpl; [reflexivity|].
  rewrite IH. unfold mem. destruct (existsb (String.eqb i) (keys m)); reflexivity.
Qed.

Lemma keys_delete_eq i m :
  keys (delete i m) = filter (fun k => negb (String.eqb i k)) (keys m).
Proof.
  induction m as [|[k v] m IH]; simpl; [reflexivity|].
  destruct (String.eqb i k); simpl; now rewrite IH.
Qed.

Lemma Edits_NoDup m m' : Edits m m' -> NoDup (keys m) -> NoDup (keys m').
Proof.
  intros H Hm. induction H as [| m m' i sh H IH Hsh | m m' i H IH | m m' H IH].
  - exact Hm.
  - rewrite keys_assign_eq. destruct (mem i (keys m')) eqn:E; [auto|].
    apply NoDup_app; [auto | constructor; [intros [] | constructor] |].
    intros k Hk [<-|[]]. apply mem_In in Hk. congruence.
  - rewrite keys_delete_eq. apply NoDup_filter. auto.
  - constructor.
Qed.


(** *** Removal *)

Lemma lookup_delete_same i m : lookup i (delete i m) = None.
Proof. apply lookup_None. rewrite keys_delete. tauto. Qed.

Lemma lookup_delete_other i j m : i <> j -> lookup i (delete j m) = lookup i m.
Proof.
  intros Hne. induction m as [|[k v] m IH]; simpl; [reflexivity|].
  destruct (String.eqb_spec j k) as [->|Hjk]; simpl.
  - destruct (String.eqb_spec i k); [congruence | exact IH].
  - destruct (String.eqb i k); [reflexivity | exact IH].
Qed.

Lemma lookup_assign_same i sh m : lookup i (assign i sh m) = Some sh.
Proof.
  induction m as [|[k v] m IH]; simpl; [now rewrite String.eqb_refl|].
  destruct (String.eqb_spec i k) as [->|Hne]; simpl.
  - now rewrite String.eqb_refl.
  - destruct (String.eqb_spec i k); [congruence | exact IH].
Qed.

Lemma lookup_assign_other i j sh m : i <> j -> lookup i (assign j sh m) = lookup i m.
Proof.
  intros Hne. induction m as [|[k v] m IH]; simpl.
  - destruct (String.eqb_spec i j); [congruence | reflexivity].
  - destruct (String.eqb_spec j k) as [->|Hjk]; simpl.
    + destruct (String.eqb_spec i k); [congruence | reflexivity].
    + destruct (String.eqb i k); [reflexivity | exact IH].
Qed.

Lemma removeSegment_lookup i w k :
  lookup k (_segmentShapes (this (_removeSegment i w)))
  = if String.eqb k i then None else lookup k (_segmentShapes (this w)).
Proof.
  rewrite removeSegment_shapes.
  destruct (String.eqb_spec k i) as [->|Hne].
  - destruct (lookup i (_segmentShapes (this w))) eqn:E;
      [apply lookup_delete_same | exact E].
  - destruct (lookup i (_segmentShapes (this w))); [now apply lookup_delete_other | reflexivity].
Qed.







(** *** Shapes that stay *)

Lemma addSegmentShape_facts i w :
  _segmentShapes (this (snd (_addSegmentShape i w)))
  = assign i {| serial := allocated (this w); getSegment := i |} (_segmentShapes (this w))
  /\ fst (_addSegmentShape i w) = {| serial := allocated (this w); getSegment := i |}
  /\ trace (snd (_addSegmentShape i w))
     = trace w
       ++ new_SegmentShape {| serial := allocated (this w); getSegment := i |}
            (_allowEditing (this w))
          :: (if is_overview w then []
              else [shape_addToLayer {| serial := allocated (this w); getSegment := i |}]).
Proof.
  unfold _addSegmentShape, _createSegmentShape, is_overview; simpl.
  destruct (String.eqb (getName (view w)) "overview"); simpl;
    repeat split; now rewrite <- ?app_assoc.
Qed.

Lemma updateSegment_lookup i w k sh :
  lookup k (_segmentShapes (this w)) = Some sh ->
  lookup k (_segmentShapes (this (_updateSegment i w))) = Some sh.
Proof.
  intros Hk. unfold _updateSegment, _findOrAddSegmentShape.
  destruct (lookup i (_segmentShapes (this w))) as [shi|] eqn:Ei; [exact Hk|].
  destruct (addSegmentShape_facts i w) as (Hm & _).
  destruct (_addSegmentShape i w) as [sh' w1]. simpl in *. rewrite Hm.
  rewrite lookup_assign_other; [exact Hk | congruence].
Qed.

Lemma forEach_updateSegment_lookup l :
  forall w k sh,
    lookup k (_segmentShapes (this w)) = Some sh ->
    lookup k (_segmentShapes (this (forEach l _updateSegment w))) = Some sh.
Proof.
  unfold forEach. induction l as [|i l IH]; intros w k sh Hk; simpl; [exact Hk|].
  apply IH. now apply updateSegment_lookup.
Qed.

Lemma removeInvisible_loop_keeps_visible t0 t1 ids :
  forall n w k sh,
    lookup k (_segmentShapes (this w)) = Some sh ->
    isVisible (heap w k) t0 t1 = true ->
    lookup k (_segmentShapes (this (snd (removeInvisible_loop ids t0 t1 n w)))) = Some sh.
Proof.
  induction ids as [|sid ids IH]; intros n w k sh Hk Hv; simpl; [exact Hk|].
  destruct (lookup sid (_segmentShapes (this w))) as [s0|]; [|now apply IH].
  destruct (isVisible (heap w (getSegment s0)) t0 t1) eqn:E; simpl; [now apply IH|].
  destruct (removeSegment_spec (getSegment s0) w) as ((_ & Hh & _) & _).
  apply IH; [|now rewrite Hh].
  rewrite removeSegment_lookup.
  destruct (String.eqb_spec k (getSegment s0)) as [->|]; [congruence | exact Hk].
Qed.

Lemma updateSegments_lookup_visible t0 t1 w k sh :
  lookup k (_segmentShapes (this w)) = Some sh ->
  isVisible (heap w k) t0 t1 = true ->
  lookup k (_segmentShapes (this (updateSegments t0 t1 w))) = Some sh.
Proof.
  intros Hk Hv. unfold updateSegments, _removeInvisibleSegments.
  destruct (forEach_updateSegment_spec (find t0 t1 w) w) as ((_ & Hh & _) & _).
  pose proof (forEach_updateSegment_lookup (find t0 t1 w) w k sh Hk) as H1.
  set (w1 := forEach (find t0 t1 w) _updateSegment w) in *.
  assert (Hv1 : isVisible (heap w1 k) t0 t1 = true) by now rewrite Hh.
  pose proof (removeInvisible_loop_keeps_visible t0 t1
                (keys (_segmentShapes (this w1))) 0 w1 k sh H1 Hv1) as H2.
  destruct (removeInvisible_loop _ t0 t1 0 w1) as [removed w2]. simpl in H2.
  destruct (0 <? _)%nat; [rewrite shapes_draw|]; exact H2.
Qed.

(** Reconciliation never recreates a proxy that stays in range: a segment
    that holds a shape and overlaps the range holds the very same shape
    object after [updateSegments]. *)
Theorem visible_proxy_keeps_its_shape (w : World) (t0 t1 : Q) (k : Id) (sh : SegmentShape) :
  lookup k (_segmentShapes (this w)) = Some sh ->
  isVisible (heap w k) t0 t1 = true ->
  lookup k (_segmentShapes (this (updateSegments t0 t1 w))) = Some sh.
Proof. apply updateSegments_lookup_visible. Qed.

(** An update notification for a segment that holds a shape and still
    overlaps the visible range destroys that shape and constructs a new
    one, in this order, and the segment holds the new shape afterwards:
    the shape is replaced, not repositioned. *)
Theorem update_replaces_the_shape (w : World) (i : Id) (old : SegmentShape) :
  lookup i (_segmentShapes (this w)) = Some old ->
  isVisible (heap w i) (frameStartTime w) (frameEndTime w) = true ->
  exists d,
    trace (_onSegmentsUpdate i w)
    = trace w
      ++ [shape_destroy old;
          new_SegmentShape {| serial := allocated (this w); getSegment := i |}
                           (_allowEditing (this w))]
      ++ d
    /\ lookup i (_segmentShapes (this (_onSegmentsUpdate i w)))
       = Some {| serial := allocated (this w); getSegment := i |}.
Proof.
  intros Hl Hv. unfold _onSegmentsUpdate. rewrite Hl. cbv zeta.
  destruct (removeSegment_spec i w) as ((Hview & Hheap & _) & _).
  assert (Htr1 : trace (_removeSegment i w) = trace w ++ [shape_destroy old])
    by (unfold _removeSegment; rewrite Hl; reflexivity).
  assert (Hal1 : allocated (this (_removeSegment i w)) = allocated (this w)
                 /\ _allowEditing (this (_removeSegment i w)) = _allowEditing (this w))
    by (unfold _removeSegment; rewrite Hl; split; reflexivity).
  destruct Hal1 as [Hal1 Hed1].
  rewrite Hheap, Hv.
  destruct (addSegmentShape_facts i (_removeSegment i w)) as (Hm & _ & Htr2).
  destruct (addSegmentShape_spec i (_removeSegment i w)) as ((_ & Hheap2 & _) & _).
  set (w2 := snd (_addSegmentShape i (_removeSegment i w))) in *.
  rewrite Hal1 in Hm, Htr2. rewrite Hed1 in Htr2.
  assert (Hl2 : lookup i (_segmentShapes (this w2))
                = Some {| serial := allocated (this w); getSegment := i |})
    by (rewrite Hm; apply lookup_assign_same).
  assert (Hv2 : isVisible (heap w2 i) (frameStartTime w) (frameEndTime w) = true)
    by (rewrite Hheap2, Hheap; exact Hv).
  destruct (updateSegments_spec (frameStartTime w) (frameEndTime w) w2)
    as (_ & _ & (d & Hd & _) & _).
  eexists. split.
  - rewrite Hd, Htr2, Htr1. rewrite <- !app_assoc. simpl. reflexivity.
  - now apply updateSegments_lookup_visible.
Qed.

(** *** A dragged segment *)


(** *** Reconciling twice *)

Lemma forEach_updateSegment_present l :
  forall w,
    (forall i, In i l -> lookup i (_segmentShapes (this w)) <> None) ->
    _segmentShapes (this (forEach l _updateSegment w)) = _segmentShapes (this w)
    /\ Since Repositions w (forEach l _updateSegment w).
Proof.
  unfold forEach. induction l as [|i l IH]; intros w H; simpl.
  - split; [reflexivity | apply Since_refl].
  - assert (Hi : lookup i (_segmentShapes (this w)) <> None) by (apply H; now left).
    destruct (lookup i (_segmentShapes (this w))) as [sh|] eqn:E; [|congruence].
    assert (Eu : _updateSegment i w = emit (shape_updatePosition sh) w)
      by (unfold _updateSegment, _findOrAddSegmentShape; now rewrite E).
    rewrite Eu.
    destruct (IH (emit (shape_updatePosition sh) w)) as [H1 H2].
    { intros j Hj. apply H. now right. }
    split; [exact H1|].
    eapply Since_trans; [|exact H2]. apply Since_emit. split; reflexivity.
Qed.

Lemma removeInvisible_loop_all_visible t0 t1 ids :
  forall n w,
    (forall k sh, lookup k (_segmentShapes (this w)) = Some sh ->
                  isVisible (heap w (getSegment sh)) t0 t1 = true) ->
    removeInvisible_loop ids t0 t1 n w = (n, w).
Proof.
  induction ids as [|sid ids IH]; intros n w H; simpl; [reflexivity|].
  destruct (lookup sid (_segmentShapes (this w))) as [sh|] eqn:E; [|now apply IH].
  rewrite (H sid sh E). simpl. now apply IH.
Qed.

Lemma updateSegments_settled t0 t1 w :
  (forall i, In i (find t0 t1 w) -> lookup i (_segmentShapes (this w)) <> None) ->
  (forall k sh, lookup k (_segmentShapes (this w)) = Some sh ->
                isVisible (heap w (getSegment sh)) t0 t1 = true) ->
  _segmentShapes (this (updateSegments t0 t1 w)) = _segmentShapes (this w)
  /\ Since Repositions w (updateSegments t0 t1 w).
Proof.
  intros Hfound Hvis. unfold updateSegments, _removeInvisibleSegments.
  destruct (forEach_updateSegment_present (find t0 t1 w) w Hfound) as [Hsh Hsince].
  destruct (forEach_updateSegment_spec (find t0 t1 w) w) as ((_ & Hheap & _) & _).
  set (w1 := forEach (find t0 t1 w) _updateSegment w) in *.
  rewrite removeInvisible_loop_all_visible.
  - destruct (0 <? _)%nat.
    + rewrite shapes_draw. split; [exact Hsh|].
      eapply Since_trans; [exact Hsince|]. apply Since_draw. split; reflexivity.
    + split; assumption.
  - intros k sh Hl. rewrite Hsh in Hl. rewrite Hheap. now apply (Hvis k).
Qed.

(** Reconciliation is idempotent on the map: after any store operations,
    a second [updateSegments] over the same range leaves the map as the
    first left it, constructing and destroying nothing; it only
    repositions the shapes found and redraws. *)
Theorem reconciling_twice_changes_no_shape
    (v : View) (editing : bool) (h : Id -> Segment) (stored : list Id)
    (ops : list StoreOp) (t0 t1 : Q) :
  _segmentShapes
    (this (updateSegments t0 t1
             (updateSegments t0 t1 (store_run ops (construct v editing h stored)))))
  = _segmentShapes
      (this (updateSegments t0 t1 (store_run ops (construct v editing h stored))))
  /\ Since Repositions
       (updateSegments t0 t1 (store_run ops (construct v editing h stored)))
       (updateSegments t0 t1
          (updateSegments t0 t1 (store_run ops (construct v editing h stored)))).
Proof.
  destruct (construct_Held v editing h stored) as [Hs Hh].
  destruct (store_run_Held ops _ Hs Hh) as [_ [Hkeyed _]].
  set (w := store_run ops (construct v editing h stored)) in *.
  destruct (updateSegments_spec t0 t1 w) as (Hf & Hk & _).
  destruct (Hk Hkeyed) as [Hkeyed1 Hkeys1].
  assert (Hfind : find t0 t1 (updateSegments t0 t1 w) = find t0 t1 w)
    by now apply find_Frame.
  assert (Hheap : heap (updateSegments t0 t1 w) = heap w)
    by (destruct Hf as (_ & H & _); exact H).
  apply updateSegments_settled.
  - intros i Hi. rewrite Hfind in Hi.
    assert (Hin : In i (keys (_segmentShapes (this (updateSegments t0 t1 w))))).
    { apply Hkeys1. split; [now left|]. now apply find_In in Hi. }
    intros Hnone. apply lookup_None in Hnone. now apply Hnone.
  - intros k sh Hl. apply lookup_In in Hl.
    rewrite (Hkeyed1 k sh Hl), Hheap.
    apply (Hkeys1 k). apply keys_In. eauto.
Qed.

(** *** The count of removed segments *)

Lemma removeInvisible_loop_counts t0 t1 ids :
  forall n w,
    Keyed (_segmentShapes (this w)) ->
    NoDup ids ->
    (forall k, In k ids -> In k (keys (_segmentShapes (this w)))) ->
    fst (removeInvisible_loop ids t0 t1 n w)
    = (n + List.length (filter (fun k => negb (isVisible (heap w k) t0 t1)) ids))%nat
    /\ destroys (snd (removeInvisible_loop ids t0 t1 n w))
       = (destroys w + (fst (removeInvisible_loop ids t0 t1 n w) - n))%nat.
Proof.
  induction ids as [|sid ids IH]; intros n w Hkeyed Hnd Hin; simpl; [split; lia|].
  inversion Hnd as [|? ? Hnotin Hnd']; subst.
  assert (Hsid : In sid (keys (_segmentShapes (this w)))) by (apply Hin; now left).
  apply keys_In in Hsid as (sh0 & Hsh0).
  destruct (lookup sid (_segmentShapes (this w))) as [sh|] eqn:E.
  2:{ exfalso. apply lookup_None in E. apply E. apply keys_In. eauto. }
  assert (Hseg : getSegment sh = sid) by (apply Hkeyed, lookup_In, E).
  rewrite Hseg.
  destruct (isVisible (heap w sid) t0 t1) eqn:Hv; simpl.
  - apply IH; auto. intros k Hk. apply Hin. now right.
  - destruct (removeSegment_spec sid w) as ((_ & Hheap & _) & Hm & _).
    destruct (IH (S n) (_removeSegment sid w)) as [H1 H2].
    + intros k v Hkv. apply Hm in Hkv as [Hkv _]. now apply Hkeyed.
    + exact Hnd'.
    + intros k Hk. apply keys_In.
      assert (Hk' : In k (keys (_segmentShapes (this w)))) by (apply Hin; now right).
      apply keys_In in Hk' as (vk & Hvk). exists vk. apply Hm. split; [exact Hvk|].
      intros ->. contradiction.
    + rewrite Hheap in H1.
      assert (Hd : destroys (_removeSegment sid w) = (destroys w + 1)%nat).
      { unfold _removeSegment. rewrite E. unfold destroys; simpl.
        rewrite filter_app, length_app. simpl. lia. }
      split; [rewrite H1; lia | rewrite H2, Hd, H1; lia].
Qed.

(** [_removeInvisibleSegments] returns what its comment promises, the
    number of segments removed: after any store operations, the count is
    the number of segments holding a shape that do not overlap the range,
    and exactly that many shapes are destroyed. *)
Theorem removeInvisible_returns_the_number_removed
    (v : View) (editing : bool) (h : Id -> Segment) (stored : list Id)
    (ops : list StoreOp) (t0 t1 : Q) :
  fst (_removeInvisibleSegments t0 t1 (store_run ops (construct v editing h stored)))
  = List.length
      (filter (fun k => negb (isVisible
                                (heap (store_run ops (construct v editing h stored)) k) t0 t1))
              (keys (_segmentShapes (this (store_run ops (construct v editing h stored))))))
  /\ destroys (snd (_removeInvisibleSegments t0 t1
                      (store_run ops (construct v editing h stored))))
     = (destroys (store_run ops (construct v editing h stored))
        + fst (_removeInvisibleSegments t0 t1
                 (store_run ops (construct v editing h stored))))%nat.
Proof.
  destruct (construct_Held v editing h stored) as [Hs Hh].
  destruct (store_run_Held ops _ Hs Hh) as [_ [Hkeyed _]].
  pose proof (store_run_Edits ops _ Hs Hh) as He.
  assert (Hnd : NoDup (keys (_segmentShapes
                               (this (store_run ops (construct v editing h stored))))))
    by (apply (Edits_NoDup _ _ He); constructor).
  set (w := store_run ops (construct v editing h stored)) in *.
  unfold _removeInvisibleSegments.
  destruct (removeInvisible_loop_counts t0 t1 (keys (_segmentShapes (this w))) 0 w
              Hkeyed Hnd (fun k H => H)) as [H1 H2].
  split; [exact H1 | rewrite H2; lia].
Qed.

(** *** The overview *)

Lemma overview_draw w : is_overview w = true -> draw w = w.
Proof. intros H. unfold draw. now rewrite H. Qed.

Lemma overview_addSegmentShape i w :
  is_overview w = true ->
  Since (fun c => on_canvas c = false) w (snd (_addSegmentShape i w)).
Proof.
  intros Ho. destruct (addSegmentShape_facts i w) as (_ & _ & Ht). rewrite Ho in Ht.
  eexists. split; [exact Ht|]. constructor; [reflexivity | constructor].
Qed.

Lemma any_removeSegment i w :
  Since (fun c => on_canvas c = false) w (_removeSegment i w).
Proof.
  unfold _removeSegment. destruct (lookup i _); [|apply Since_refl].
  eexists. split; [reflexivity|]. constructor; [reflexivity | constructor].
Qed.

Lemma any_hideSegment i w :
  Since (fun c => on_canvas c = false) w (_hideSegment i w).
Proof.
  unfold _hideSegment. destruct (lookup i _); [|apply Since_refl].
  eexists. split; [reflexivity|]. constructor; [reflexivity | constructor].
Qed.

Lemma overview_updateSegment i w :
  is_overview w = true ->
  Since (fun c => on_canvas c = false) w (_updateSegment i w).
Proof.
  intros Ho. unfold _updateSegment, _findOrAddSegmentShape.
  destruct (lookup i _); [now apply Since_emit|].
  pose proof (overview_addSegmentShape i w Ho) as H.
  destruct (_addSegmentShape i w) as [sh w1]. simpl in H.
  eapply Since_trans; [exact H | now apply Since_emit].
Qed.

Lemma overview_forEach {A} (f : A -> World -> World) (l : list A) w :
  (forall x w', Frame w' (f x w')) ->
  (forall x w', is_overview w' = true ->
                Since (fun c => on_canvas c = false) w' (f x w')) ->
  is_overview w = true ->
  Frame w (forEach l f w)
  /\ Since (fun c => on_canvas c = false) w (forEach l f w).
Proof.
  intros Hf Hs Ho.
  apply (forEach_inv (fun w' => Frame w w'
                               /\ Since (fun c => on_canvas c = false) w w')).
  - intros x w' _ [H1 H2]. split; [eapply Frame_trans; [exact H1 | apply Hf]|].
    eapply Since_trans; [exact H2|]. apply Hs.
    now rewrite (is_overview_Frame _ _ H1).
  - split; [apply Frame_refl | apply Since_refl].
Qed.

Lemma any_removeInvisible_loop t0 t1 ids :
  forall n w,
    Since (fun c => on_canvas c = false) w (snd (removeInvisible_loop ids t0 t1 n w)).
Proof.
  induction ids as [|sid ids IH]; intros n w; simpl; [apply Since_refl|].
  destruct (lookup sid _) as [sh|]; [|apply IH].
  destruct (isVisible _ _ _); simpl; [apply IH|].
  eapply Since_trans; [apply any_removeSegment | apply IH].
Qed.

Lemma overview_updateSegments t0 t1 w :
  is_overview w = true ->
  Since (fun c => on_canvas c = false) w (updateSegments t0 t1 w).
Proof.
  intros Ho. unfold updateSegments, _removeInvisibleSegments.
  destruct (overview_forEach _updateSegment (find t0 t1 w) w) as [Hf1 Hs1];
    [intros x w'; apply updateSegment_spec | intros x w'; apply overview_updateSegment
    | exact Ho |].
  set (w1 := forEach (find t0 t1 w) _updateSegment w) in *.
  pose proof (any_removeInvisible_loop t0 t1 (keys (_segmentShapes (this w1))) 0 w1) as Hs2.
  destruct (removeInvisible_loop_spec t0 t1 (keys (_segmentShapes (this w1))) 0 w1)
    as (Hf2 & _).
  destruct (removeInvisible_loop _ t0 t1 0 w1) as [removed w2]. simpl in Hs2, Hf2.
  assert (Ho2 : is_overview w2 = true).
  { rewrite (is_overview_Frame _ _ Hf2), (is_overview_Frame _ _ Hf1). exact Ho. }
  assert (E : (if (0 <? List.length (find t0 t1 w) + removed)%nat then draw w2 else w2) = w2)
    by (destruct (0 <? _)%nat; [now apply overview_draw | reflexivity]).
  rewrite E. eapply Since_trans; eassumption.
Qed.

Lemma overview_handle n w :
  is_overview w = true ->
  view (handle n w) = view w
  /\ Since (fun c => on_canvas c = false) w (handle n w).
Proof.
  intros Ho. split.
  { destruct n as [i | l | l | l | | i]; simpl.
    - destruct (onSegmentsUpdate_cases i w) as (redraw & w2 & E & Hf & _). rewrite E.
      destruct redraw; [|apply Hf].
      destruct (updateSegments_spec (frameStartTime w) (frameEndTime w) w2) as ((Hv & _) & _).
      destruct Hf as (Hv' & _). congruence.
    - unfold _onSegmentsAdd.
      destruct (forEach_addVisible_spec (frameStartTime w) (frameEndTime w) l w)
        as ((Hv & _) & _); cbv zeta in Hv.
      match goal with |- view (updateSegments ?a ?b ?x) = _ =>
        destruct (updateSegments_spec a b x) as ((Hv' & _) & _) end.
      congruence.
    - unfold _onSegmentsRemove.
      destruct (forEach_removeSegment_spec l w) as ((Hv & _) & _).
      destruct (Frame_draw (forEach l _removeSegment w)) as (Hv' & _). congruence.
    - unfold _onSegmentsHide.
      destruct (forEach_hideSegment_spec l w) as (_ & Hv & _).
      destruct (Frame_draw (forEach l _hideSegment w)) as (Hv' & _). congruence.
    - unfold _onSegmentsRemoveAll.
      destruct (Frame_draw (set_shapes [] (emit layer_removeChildren w))) as (Hv' & _).
      exact Hv'.
    - unfold _onSegmentsDragged.
      destruct (updateSegment_spec i w) as ((Hv & _) & _).
      destruct (Frame_draw (_updateSegment i w)) as (Hv' & _). congruence. }
  destruct n as [i | l | l | l | | i]; simpl.
  - unfold _onSegmentsUpdate.
    destruct (removeSegment_spec i w) as (Hf1 & _).
    assert (Ho1 : is_overview (_removeSegment i w) = true)
      by now rewrite (is_overview_Frame _ _ Hf1).
    destruct (lookup i (_segmentShapes (this w))); cbv zeta.
    + destruct (isVisible _ _ _).
      * destruct (addSegmentShape_spec i (_removeSegment i w)) as (Hf2 & _).
        eapply Since_trans; [apply (any_removeSegment i w)|].
        eapply Since_trans;
          [apply (overview_addSegmentShape i (_removeSegment i w) Ho1)|].
        apply overview_updateSegments.
        now rewrite (is_overview_Frame _ _ Hf2).
      * eapply Since_trans; [apply (any_removeSegment i w)|].
        now apply overview_updateSegments.
    + destruct (isVisible _ _ _).
      * destruct (addSegmentShape_spec i w) as (Hf2 & _).
        eapply Since_trans; [apply (overview_addSegmentShape i w Ho)|].
        apply overview_updateSegments. now rewrite (is_overview_Frame _ _ Hf2).
      * apply Since_refl.
  - unfold _onSegmentsAdd.
    destruct (overview_forEach
                (fun segment acc =>
                   if isVisible (heap acc segment) (frameStartTime w) (frameEndTime w)
                   then snd (_addSegmentShape segment acc) else acc) l w) as [Hf Hs];
      [ intros x w'; destruct (isVisible _ _ _);
          [apply addSegmentShape_spec | apply Frame_refl]
      | intros x w' Ho'; destruct (isVisible _ _ _);
          [now apply overview_addSegmentShape | apply Since_refl]
      | exact Ho |].
    eapply Since_trans; [exact Hs|]. apply overview_updateSegments.
    now rewrite (is_overview_Frame _ _ Hf).
  - unfold _onSegmentsRemove.
    destruct (overview_forEach _removeSegment l w) as [Hf Hs];
      [ intros x w'; apply removeSegment_spec
      | intros x w' _; apply any_removeSegment | exact Ho |].
    rewrite overview_draw; [exact Hs | now rewrite (is_overview_Frame _ _ Hf)].
  - unfold _onSegmentsHide.
    destruct (forEach_hideSegment_spec l w) as (_ & Hv & _).
    rewrite overview_draw; [|unfold is_overview in *; now rewrite Hv].
    apply (forEach_inv (fun w' => Since (fun c => on_canvas c = false) w w'));
      [|apply Since_refl].
    intros x w' _ H. eapply Since_trans; [exact H | apply any_hideSegment].
  - unfold _onSegmentsRemoveAll. rewrite overview_draw; [|exact Ho].
    eexists. split; [reflexivity|]. constructor; [reflexivity | constructor].
  - unfold _onSegmentsDragged.
    destruct (updateSegment_spec i w) as (Hf & _).
    rewrite overview_draw; [now apply overview_updateSegment
                          | now rewrite (is_overview_Frame _ _ Hf)].
Qed.

Lemma overview_store_step op w :
  Subscribed w -> is_overview w = true ->
  is_overview (store_step op w) = true
  /\ Since (fun c => on_canvas c = false) w (store_step op w).
Proof.
  intros Hsub Ho.
  destruct op as [segs | i t0 t1 | l | | l | i t0 t1]; simpl;
    try (destruct (mem i (store w)); [|split; [exact Ho | apply Since_refl]]);
    match goal with
    | |- context [peaks_emit ?n ?w0] =>
        rewrite (Subscribed_emit n w0 Hsub);
        destruct (overview_handle n w0 Ho) as [Hv Hs];
        split; [unfold is_overview in *; rewrite Hv; exact Ho | exact Hs]
    end.
Qed.

Lemma overview_store_run ops :
  forall w, Subscribed w -> Held w -> is_overview w = true ->
            is_overview (store_run ops w) = true
            /\ Since (fun c => on_canvas c = false) w (store_run ops w).
Proof.
  unfold store_run. induction ops as [|op ops IH]; intros w Hs Hh Ho; simpl;
    [split; [exact Ho | apply Since_refl]|].
  destruct (store_step_Held op w Hs Hh) as [Hs' Hh'].
  destruct (overview_store_step op w Hs Ho) as [Ho' H1].
  destruct (IH (store_step op w) Hs' Hh' Ho') as [Ho2 H2].
  split; [exact Ho2 | eapply Since_trans; eassumption].
Qed.

(** In the overview nothing the layer does reaches the canvas: whatever
    the store does, and after a reconciliation over any range, the layer
    has constructed shapes but has put none on the Konva layer and has
    never redrawn it. *)
Theorem overview_never_reaches_the_canvas
    (v : View) (editing : bool) (h : Id -> Segment) (stored : list Id)
    (ops : list StoreOp) (t0 t1 : Q) :
  getName v = "overview" ->
  Forall (fun c => on_canvas c = false)
         (trace (updateSegments t0 t1 (store_run ops (construct v editing h stored)))).
Proof.
  intros Hname.
  destruct (construct_Held v editing h stored) as [Hs Hh].
  assert (Ho : is_overview (construct v editing h stored) = true)
    by (unfold is_overview; simpl; rewrite Hname; reflexivity).
  destruct (overview_store_run ops _ Hs Hh Ho) as [Ho' (d1 & E1 & F1)].
  destruct (overview_updateSegments t0 t1 _ Ho') as (d2 & E2 & F2).
  rewrite E2, E1. simpl. apply Forall_app. split; assumption.
Qed.

(** *** A segment added again *)

Lemma removeInvisible_loop_destroys t0 t1 ids :
  forall n w,
    Keyed (_segmentShapes (this w)) ->
    Since (fun c => forall sh, c = shape_destroy sh ->
                               isVisible (heap w (getSegment sh)) t0 t1 = false)
          w (snd (removeInvisible_loop ids t0 t1 n w)).
Proof.
  induction ids as [|sid ids IH]; intros n w Hk; simpl; [apply Since_refl|].
  destruct (lookup sid (_segmentShapes (this w))) as [sh|] eqn:E; [|now apply IH].
  destruct (isVisible (heap w (getSegment sh)) t0 t1) eqn:V; simpl; [now apply IH|].
  assert (Hseg : getSegment sh = sid) by (apply Hk, lookup_In, E).
  destruct (removeSegment_spec (getSegment sh) w) as ((_ & Hheap & _) & Hm & _).
  assert (Htr : trace (_removeSegment (getSegment sh) w) = trace w ++ [shape_destroy sh])
    by (unfold _removeSegment; rewrite Hseg, E; reflexivity).
  eapply Since_trans.
  - exists [shape_destroy sh]. split; [exact Htr|].
    constructor; [|constructor]. intros sh' [= <-]. exact V.
  - rewrite <- Hheap. apply IH.
    intros k v Hkv. apply Hm in Hkv as [Hkv _]. now apply Hk.
Qed.

Lemma updateSegments_destroys t0 t1 w :
  Keyed (_segmentShapes (this w)) ->
  Since (fun c => forall sh, c = shape_destroy sh ->
                             isVisible (heap w (getSegment sh)) t0 t1 = false)
        w (updateSegments t0 t1 w).
Proof.
  intros Hk. unfold updateSegments, _removeInvisibleSegments.
  destruct (forEach_updateSegment_spec (find t0 t1 w) w)
    as ((_ & Hheap & _) & _ & Hkeyed & Hs).
  set (w1 := forEach (find t0 t1 w) _updateSegment w) in *.
  pose proof (removeInvisible_loop_destroys t0 t1 (keys (_segmentShapes (this w1))) 0 w1
                (Hkeyed Hk)) as Hloop.
  rewrite Hheap in Hloop.
  destruct (removeInvisible_loop _ t0 t1 0 w1) as [removed w2]. simpl in Hloop.
  eapply Since_trans; [|eapply Since_trans; [exact Hloop|]].
  - eapply Since_impl; [|exact Hs]. intros c (_ & Hd & _) sh ->. discriminate.
  - destruct (0 <? _)%nat; [|apply Since_refl]. apply Since_draw. discriminate.
Qed.

(** Adding a displayed segment again overwrites its shape and does not
    destroy it.  When an add notification names a segment that holds a
    shape and is in the visible range, [_addSegmentShape] constructs a
    second shape and assigns it over the first; the segment holds the new
    shape afterwards, and the handler destroys no shape of that segment:
    the first shape is dropped from the map without a call of its
    [destroy].  The map is keyed by segment, the shape held was
    constructed earlier, and the ids of the store are [Plain]. *)
Theorem readded_shape_is_overwritten_not_destroyed
    (w : World) (i : Id) (old : SegmentShape) :
  Keyed (_segmentShapes (this w)) ->
  Forall Plain (store w) ->
  lookup i (_segmentShapes (this w)) = Some old ->
  (serial old < allocated (this w))%nat ->
  isVisible (heap w i) (frameStartTime w) (frameEndTime w) = true ->
  lookup i (_segmentShapes (this (_onSegmentsAdd [i] w)))
  = Some {| serial := allocated (this w); getSegment := i |}
  /\ {| serial := allocated (this w); getSegment := i |} <> old
  /\ In (new_SegmentShape {| serial := allocated (this w); getSegment := i |}
                          (_allowEditing (this w)))
        (trace (_onSegmentsAdd [i] w))
  /\ Since (fun c => forall sh, c = shape_destroy sh -> getSegment sh <> i)
           w (_onSegmentsAdd [i] w).
Proof.
  intros Hk _ Hl Hser Hv. unfold _onSegmentsAdd, forEach. simpl. rewrite Hv.
  destruct (addSegmentShape_facts i w) as (Hm & _ & Ht).
  destruct (addSegmentShape_spec i w) as ((_ & Hheap & _) & _ & _ & Hs).
  set (w1 := snd (_addSegmentShape i w)) in *.
  set (new := {| serial := allocated (this w); getSegment := i |}) in *.
  assert (Hl1 : lookup i (_segmentShapes (this w1)) = Some new)
    by (rewrite Hm; apply lookup_assign_same).
  assert (Hv1 : isVisible (heap w1 i) (frameStartTime w) (frameEndTime w) = true)
    by (rewrite Hheap; exact Hv).
  assert (Hk1 : Keyed (_segmentShapes (this w1)))
    by (rewrite Hm; apply Keyed_assign; [reflexivity | exact Hk]).
  pose proof (updateSegments_destroys (frameStartTime w) (frameEndTime w) w1 Hk1) as Hd.
  split; [now apply updateSegments_lookup_visible|].
  split; [intros <-; simpl in Hser; lia|].
  split.
  - eapply Since_In; [exact Hd|]. rewrite Ht. apply in_or_app. right. now left.
  - eapply Since_trans.
    + eapply Since_impl; [|exact Hs]. intros c (_ & Hnd & _) sh ->. discriminate.
    + eapply Since_impl; [|exact Hd]. intros c Hc sh -> Hi.
      specialize (Hc sh eq_refl). rewrite Hi, Hv1 in Hc. discriminate.
Qed.

(** *** Rendering *)






End AnyVisibility.




Lemma readded_shape_is_overwritten_not_destroyed_witness :
  lookup "s1" (_segmentShapes (this (_onSegmentsAdd ["s1"] (one_segment zoomview))))
  = Some {| serial := 1; getSegment := "s1" |}
  /\ Since (fun c => forall sh, c = shape_destroy sh -> getSegment sh <> "s1")
           (one_segment zoomview) (_onSegmentsAdd ["s1"] (one_segment zoomview)).
Proof.
  destruct (readded_shape_is_overwritten_not_destroyed (one_segment zoomview) "s1" shape_s1)
    as (H1 & _ & _ & H2).
  - intros k sh [[= <- <-]|[]]. reflexivity.
  - repeat constructor.
  - vm_compute; reflexivity.
  - vm_compute; lia.
  - vm_compute; reflexivity.
  - split; [exact H1 | exact H2].
Defined.

(** Rendering "s1" (displayed), "s2" (without a shape) and then also the
    id "constructor", which holds no shape. *)
Example renderSegments_on_an_inherited_name :
  renderSegments ["s1"; "s2"] two_segments = Ok (emit (shape_render shape_s1) two_segments)
  /\ renderSegments ["s1"; "s2"; "constructor"] two_segments = TypeError.
Proof. split; vm_compute; reflexivity. Qed.

Lemma visible_proxy_keeps_its_shape_witness :
  lookup "s1" (_segmentShapes (this (updateSegments 0 20 (one_segment zoomview))))
  = Some shape_s1.
Proof.
  apply (visible_proxy_keeps_its_shape (one_segment zoomview) 0 20 "s1" shape_s1);
    vm_compute; reflexivity.
Defined.

Lemma update_replaces_the_shape_witness :
  exists d,
    trace (_onSegmentsUpdate "s1" (one_segment zoomview))
    = trace (one_segment zoomview)
      ++ [shape_destroy shape_s1;
          new_SegmentShape {| serial := 1; getSegment := "s1" |} true]
      ++ d
    /\ lookup "s1" (_segmentShapes (this (_onSegmentsUpdate "s1" (one_segment zoomview))))
       = Some {| serial := 1; getSegment := "s1" |}.
Proof.
  apply (update_replaces_the_shape (one_segment zoomview) "s1" shape_s1);
    vm_compute; reflexivity.
Defined.

Lemma overview_never_reaches_the_canvas_witness :
  Forall (fun c => on_canvas c = false)
         (trace (updateSegments 0 20
                   (store_run [store_add [("s1", segment_5_10)]; store_remove ["s1"]]
                      (construct overview true no_segments [])))).
Proof.
  apply (overview_never_reaches_the_canvas overview true no_segments []
           [store_add [("s1", segment_5_10)]; store_remove ["s1"]] 0 20).
  reflexivity.
Defined.

End SegmentsMore.
